(** * The VO image-access notebooks

    A shallow embedding of the code cells of [CS_Image_Access.ipynb] and
    [EXERCISE-InspectingACandidateList.ipynb].

    The notebooks are straight-line scripts: every cell reads names from the
    kernel namespace, calls into pyvo / astropy / numpy / matplotlib, and
    binds the results to names that later cells read.  The embedding has
    three layers:

    - the data the cells handle (service descriptors, image records, HDU
      lists, astropy tables) and the pure Python expressions written in the
      cells (subscripting, the list comprehension, the [np.isin]/[np.where]
      row filter, the column selections);
    - a small language of cell programs (read a name, bind a name, call a
      library, raise, handle) with its interpreter over the kernel state;
    - the code cells themselves, one definition per cell. *)

From stdpp Require Import gmap strings list fin_maps.
From Stdlib Require Import QArith.
Close Scope Q_scope.
Open Scope string_scope.
Open Scope list_scope.
Open Scope stdpp_scope.

(** ** Data model *)

(** A record of a registry result ([pyvo.registry]), as the list
    comprehensions see it: [s.short_name] and [s.ivoid] are [str]
    attributes.  [access_url] is the endpoint that [search] talks to. *)
Record Service := {
  ivoid : string;
  short_name : string;
  res_title : string;
  access_url : string
}.

(** A row of an SIA query result.  [acref] is the access-reference column,
    whatever name the answering service gives it. *)
Record ImageRecord := {
  title : string;
  bandpass_id : string;
  acref : string
}.

(** [record.getdataurl()] *)
Definition getdataurl (r : ImageRecord) : string := acref r.

Record SkyCoord := { ra : Q; dec : Q }.

(** One header-data unit of a FITS file; [data] is the pixel array. *)
Record HDU := {
  hdu_name : string;
  data : list (list Q)
}.

(** A cell of an astropy table column of strings: a [str] or a [bytes]
    value.  Which of the two a column of [to_table()] holds is the
    library's choice; the two never compare equal. *)
Inductive cellv :=
| CStr (s : string)
| CBytes (b : string).

Definition cell_eqb (x y : cellv) : bool :=
  match x, y with
  | CStr a, CStr b => String.eqb a b
  | CBytes a, CBytes b => String.eqb a b
  | _, _ => false
  end.

(** An astropy table: column names and rows of cells. *)
Record Table := {
  colnames : list string;
  rows : list (list cellv)
}.

(** Python values that the cells bind or display. *)
Inductive value :=
| VNone
| VModule (name : string)
| VStr (s : string)
| VCoord (c : SkyCoord)
| VServices (t : list Service)
| VService (s : Service)
| VImages (t : list ImageRecord)
| VHdus (h : list HDU)
| VImage (url : string)
| VFigure (h : list HDU)
| VTable (t : Table).

Inductive exn :=
| IndexError
| KeyError (name : string)
| NameError (name : string)
| TypeError
| LibraryError (msg : string).

Inductive result (A : Type) :=
| Ok (a : A)
| Raised (e : exn).
Arguments Ok {A} a.
Arguments Raised {A} e.

(** ** Pure expressions of the cells *)

Module Py.

(** [xs[i]] for a literal index [i >= 0]. *)
Definition index {A} (xs : list A) (i : nat) : result A :=
  match nth_error xs i with
  | Some x => Ok x
  | None => Raised IndexError
  end.

(** [needle in hay] on [str]. *)
Fixpoint str_in (needle hay : string) : bool :=
  if String.prefix needle hay then true
  else match hay with
       | EmptyString => false
       | String _ hay' => str_in needle hay'
       end.

(** [[x for x in xs if p x]] *)
Definition comprehension {A} (p : A -> bool) (xs : list A) : list A :=
  List.filter p xs.

End Py.

Module Np.

(** [np.isin(column, value)] for a scalar [value]: the element-wise mask. *)
Definition isin (column : list cellv) (v : cellv) : list bool :=
  map (fun x => cell_eqb x v) column.

(** [np.where(mask)]: the positions that hold [True], ascending. *)
Fixpoint where_from (i : nat) (mask : list bool) : list nat :=
  match mask with
  | [] => []
  | b :: mask' =>
      if b then i :: where_from (S i) mask' else where_from (S i) mask'
  end.

Definition where_ (mask : list bool) : list nat := where_from 0 mask.

End Np.

(** [f] on every element, left to right, stopping at the first raise. *)
Fixpoint traverse {A B} (f : A -> result B) (xs : list A) : result (list B) :=
  match xs with
  | [] => Ok []
  | x :: rest =>
      match f x with
      | Ok y =>
          match traverse f rest with
          | Ok ys => Ok (y :: ys)
          | Raised e => Raised e
          end
      | Raised e => Raised e
      end
  end.

(** [rows[indices]]: the rows at the given positions, in the order of the
    positions; a position past the end raises [IndexError]. *)
Fixpoint take_rows {A} (t : list A) (indices : list nat) : result (list A) :=
  match indices with
  | [] => Ok []
  | i :: rest =>
      match Py.index t i with
      | Ok r =>
          match take_rows t rest with
          | Ok rs => Ok (r :: rs)
          | Raised e => Raised e
          end
      | Raised e => Raised e
      end
  end.

(** The position of a column name. *)
Fixpoint index_of (name : string) (names : list string) : option nat :=
  match names with
  | [] => None
  | n :: rest =>
      if String.eqb n name then Some 0 else option_map S (index_of name rest)
  end.

Definition find_column (tbl : Table) (name : string) : result nat :=
  match index_of name (colnames tbl) with
  | Some j => Ok j
  | None => Raised (KeyError name)
  end.

(** [tbl[name]]: the cells of one column; [KeyError] when the table has no
    such column. *)
Definition column (tbl : Table) (name : string) : result (list cellv) :=
  match find_column tbl name with
  | Ok j => traverse (fun row => Py.index row j) (rows tbl)
  | Raised e => Raised e
  end.

(** [tbl[name1, name2, ...]]: the table of the named columns, in the order
    asked; [KeyError] for the first name the table does not have. *)
Definition select_columns (names : list string) (tbl : Table) : result Table :=
  match traverse (find_column tbl) names with
  | Ok js =>
      match traverse (fun row => traverse (Py.index row) js) (rows tbl) with
      | Ok rs => Ok {| colnames := names; rows := rs |}
      | Raised e => Raised e
      end
  | Raised e => Raised e
  end.

(** [tbl[indices]]: the table of the rows at the given positions. *)
Definition table_take (tbl : Table) (indices : list nat) : result Table :=
  match take_rows (rows tbl) indices with
  | Ok rs => Ok {| colnames := colnames tbl; rows := rs |}
  | Raised e => Raised e
  end.

(** Every row has one cell per column. *)
Definition well_formed (tbl : Table) : Prop :=
  Forall (fun row => length row = length (colnames tbl)) (rows tbl).

(** [np.where(np.isin(tbl2['short_name'], b'SDSSDR7'))] *)
Definition isin_positions (tbl2 : Table) : result (list nat) :=
  match column tbl2 "short_name" with
  | Ok col => Ok (Np.where_ (Np.isin col (CBytes "SDSSDR7")))
  | Raised e => Raised e
  end.

(** [tbl[np.where(np.isin(tbl2['short_name'], b'SDSSDR7'))]] for the two
    tables that the two [to_table()] calls of the expression produce. *)
Definition rows_where_isin (tbl tbl2 : Table) : result Table :=
  match isin_positions tbl2 with
  | Ok indices => table_take tbl indices
  | Raised e => Raised e
  end.

(** [services.to_table()[np.where(np.isin(services.to_table()['short_name'],
    b'SDSSDR7'))]] when both [to_table()] calls give the same table. *)
Definition sdssdr7_rows (tbl : Table) : result Table :=
  rows_where_isin tbl tbl.

(** The rows that the filter keeps: those whose cell in column [j] is the
    bytes value [b'SDSSDR7']. *)
Definition is_sdssdr7 (j : nat) (row : list cellv) : bool :=
  match nth_error row j with
  | Some c => cell_eqb c (CBytes "SDSSDR7")
  | None => false
  end.

(** The condition of the two list comprehensions:
    ['SDSSDR7' in s.short_name and host in s.ivoid]. *)
Definition dr7_at (host : string) (s : Service) : bool :=
  Py.str_in "SDSSDR7" (short_name s) && Py.str_in host (ivoid s).

(** [[s for s in services if 'SDSSDR7' in s.short_name and host in s.ivoid][0]] *)
Definition select_dr7 (host : string) (services : list Service) : result Service :=
  Py.index (Py.comprehension (dr7_at host) services) 0.

Definition heasarc_dr7_service := select_dr7 "heasarc".
Definition jhu_dr7_service := select_dr7 "jhu".

(** ** The language of cell programs *)

(** Calls that leave the notebook: each constructor is one library entry
    point with the arguments the cells pass to it. *)
Inductive call :=
| Import (module : string)
| ImportFrom (module name : string)
| Magic (line : string)
| FilterWarnings (action : string) (message module : option string) (append : bool)
| RegSearch (servicetype waveband : option string) (keywords : option (list string))
| ToTable (results : value)
| ShowInNotebook (table : value) (display_length : nat)
| FromName (name : string)
| Search (svc : Service) (pos : SkyCoord) (size : Q) (format : option string)
| Print (v : value)
| Display (v : value)
| FitsOpen (src : string)
| HduInfo (h : list HDU)
| Imshow (pixels : list (list Q)) (vmin vmax : option Q)
| FitsFigure (h : list HDU)
| ShowGrayscale (fig : value) (stretch : string) (vmax : Q)
| DownloadFile (url : string) (cache : bool).

(** A cell body.  [Try p h k] is [try: p / except Exception as e: h e],
    followed by [k]. *)
Inductive prog (A : Type) : Type :=
| Ret (a : A)
| Throw (e : exn)
| Load (x : string) (k : value -> prog A)
| Store (x : string) (v : value) (k : prog A)
| Call (c : call) (k : value -> prog A)
| Try (p : prog value) (h : exn -> prog value) (k : value -> prog A).
Arguments Ret {A} a.
Arguments Throw {A} e.
Arguments Load {A} x k.
Arguments Store {A} x v k.
Arguments Call {A} c k.
Arguments Try {A} p h k.

Fixpoint bind {A B : Type} (p : prog A) (f : A -> prog B) : prog B :=
  match p with
  | Ret a => f a
  | Throw e => Throw e
  | Load x k => Load x (fun v => bind (k v) f)
  | Store x v k => Store x v (bind k f)
  | Call c k => Call c (fun v => bind (k v) f)
  | Try p h k => Try p h (fun v => bind (k v) f)
  end.

Declare Scope prog_scope.
Delimit Scope prog_scope with prog.
Notation "x <- p ;; q" := (bind p (fun x => q))
  (at level 100, p at next level, right associativity) : prog_scope.
Notation "x ::= v ;; q" := (Store x v q)
  (at level 100, v at next level, right associativity) : prog_scope.

Definition load (x : string) : prog value := Load x Ret.
Definition extern (c : call) : prog value := Call c Ret.

Definition lift {A : Type} (r : result A) : prog A :=
  match r with
  | Ok a => Ret a
  | Raised e => Throw e
  end.

(** Dynamic type tests: using a value as the wrong kind of object raises. *)
Definition as_services (v : value) : prog (list Service) :=
  match v with VServices t => Ret t | _ => Throw TypeError end.
Definition as_service (v : value) : prog Service :=
  match v with VService s => Ret s | _ => Throw TypeError end.
Definition as_images (v : value) : prog (list ImageRecord) :=
  match v with VImages t => Ret t | _ => Throw TypeError end.
Definition as_hdus (v : value) : prog (list HDU) :=
  match v with VHdus h => Ret h | _ => Throw TypeError end.
Definition as_coord (v : value) : prog SkyCoord :=
  match v with VCoord c => Ret c | _ => Throw TypeError end.
Definition as_str (v : value) : prog string :=
  match v with VStr s => Ret s | _ => Throw TypeError end.
Definition as_table (v : value) : prog Table :=
  match v with VTable t => Ret t | _ => Throw TypeError end.

(** ** Kernel state and interpreter *)

(** What an external call returned or raised. *)
Record event := {
  ev_call : call;
  ev_result : result value
}.

(** The kernel: the namespace the cells share, and the log of the external
    calls made so far. *)
Record kernel := {
  ns : gmap string value;
  trace : list event
}.

(** The libraries and the services behind them.  An answer may depend on
    everything that happened before (a service can be down now and up at
    the next attempt). *)
Definition world := list event -> call -> result value.

Definition fresh : kernel := {| ns := ∅; trace := [] |}.

Definition bind_name (x : string) (v : value) (s : kernel) : kernel :=
  {| ns := <[x := v]> (ns s); trace := trace s |}.

Definition log (c : call) (r : result value) (s : kernel) : kernel :=
  {| ns := ns s; trace := trace s ++ [{| ev_call := c; ev_result := r |}] |}.

Fixpoint run {A : Type} (w : world) (p : prog A) (s : kernel) : result A * kernel :=
  match p with
  | Ret a => (Ok a, s)
  | Throw e => (Raised e, s)
  | Load x k =>
      match ns s !! x with
      | Some v => run w (k v) s
      | None => (Raised (NameError x), s)
      end
  | Store x v k => run w k (bind_name x v s)
  | Call c k =>
      let r := w (trace s) c in
      match r with
      | Ok v => run w (k v) (log c r s)
      | Raised e => (Raised e, log c r s)
      end
  | Try p h k =>
      match run w p s with
      | (Ok v, s1) => run w (k v) s1
      | (Raised e, s1) =>
          match run w (h e) s1 with
          | (Ok v, s2) => run w (k v) s2
          | (Raised e', s2) => (Raised e', s2)
          end
      end
  end.

Definition exec {A : Type} (w : world) (p : prog A) (s : kernel) : kernel := (run w p s).2.
Definition outcome {A : Type} (w : world) (p : prog A) (s : kernel) : result A := (run w p s).1.

(** ** The code cells *)

Module Cells.
Open Scope prog_scope.

(** CS_Image_Access, first code cell: the imports, the [%matplotlib]
    magic and the two [warnings.filterwarnings] calls.  An import that
    fails ends the cell with the names above it bound. *)
Definition imports : prog value :=
  m <- extern (Import "numpy") ;;
  "np" ::= m ;;
  m <- extern (Import "matplotlib") ;;
  "matplotlib" ::= m ;;
  m <- extern (Import "matplotlib.pyplot") ;;
  "plt" ::= m ;;
  _ <- extern (Magic "matplotlib inline") ;;
  m <- extern (Import "pyvo") ;;
  "vo" ::= m ;;
  m <- extern (ImportFrom "astropy.io" "fits") ;;
  "fits" ::= m ;;
  m <- extern (Import "astropy.coordinates") ;;
  "coord" ::= m ;;
  m <- extern (ImportFrom "astropy.utils.data" "download_file") ;;
  "download_file" ::= m ;;
  m <- extern (Import "aplpy") ;;
  "aplpy" ::= m ;;
  m <- extern (ImportFrom "IPython.display" "Image") ;;
  "ipImage" ::= m ;;
  m <- extern (ImportFrom "IPython.display" "display") ;;
  "display" ::= m ;;
  m <- extern (Import "warnings") ;;
  "warnings" ::= m ;;
  _ <- load "warnings" ;;
  _ <- extern (FilterWarnings "ignore" None (Some "astropy.io.votable.*") false) ;;
  _ <- load "warnings" ;;
  _ <- extern (FilterWarnings "ignore" None (Some "pyvo.utils.xml.*") false) ;;
  Ret VNone.

(** [uv_services = vo.regsearch(servicetype='image',waveband='uv')]
    [uv_services.to_table()['ivoid','short_name','res_title']] *)
Definition uv_services : prog value :=
  _ <- load "vo" ;;
  r <- extern (RegSearch (Some "image") (Some "uv") None) ;;
  "uv_services" ::= r ;;
  v <- load "uv_services" ;;
  tv <- extern (ToTable v) ;;
  tbl <- as_table tv ;;
  shown <- lift (select_columns ["ivoid"; "short_name"; "res_title"] tbl) ;;
  Ret (VTable shown).

(** [uvot_services = vo.regsearch(servicetype='image',waveband='uv',keywords=['swift'])]
    [uvot_services.to_table()['ivoid','short_name','res_title']] *)
Definition uvot_services : prog value :=
  _ <- load "vo" ;;
  r <- extern (RegSearch (Some "image") (Some "uv") (Some ["swift"])) ;;
  "uvot_services" ::= r ;;
  v <- load "uvot_services" ;;
  tv <- extern (ToTable v) ;;
  tbl <- as_table tv ;;
  shown <- lift (select_columns ["ivoid"; "short_name"; "res_title"] tbl) ;;
  Ret (VTable shown).

(** [coords = coord.SkyCoord.from_name("m51")]
    [im_table = uvot_services[0].search(pos=coords,size=0.2,format='image/jpeg')]
    [im_table.to_table()] *)
Definition im_table : prog value :=
  _ <- load "coord" ;;
  c <- extern (FromName "m51") ;;
  "coords" ::= c ;;
  v <- load "uvot_services" ;;
  t <- as_services v ;;
  svc <- lift (Py.index t 0) ;;
  cv <- load "coords" ;;
  pos <- as_coord cv ;;
  r <- extern (Search svc pos 0.2 (Some "image/jpeg")) ;;
  "im_table" ::= r ;;
  v <- load "im_table" ;;
  extern (ToTable v).

(** [url = im_table[0].getdataurl()]
    [print(url)] *)
Definition url : prog value :=
  v <- load "im_table" ;;
  t <- as_images v ;;
  r <- lift (Py.index t 0) ;;
  "url" ::= VStr (getdataurl r) ;;
  u <- load "url" ;;
  _ <- extern (Print u) ;;
  Ret VNone.

(** [img = ipImage(url=im_table[0].getdataurl())]
    [display(img)] *)
Definition display_jpeg : prog value :=
  _ <- load "ipImage" ;;
  v <- load "im_table" ;;
  t <- as_images v ;;
  r <- lift (Py.index t 0) ;;
  "img" ::= VImage (getdataurl r) ;;
  _ <- load "display" ;;
  i <- load "img" ;;
  _ <- extern (Display i) ;;
  Ret VNone.

(** [im_table = uvot_services[0].search(pos=coords,size=0.2,format='image/fits')]
    [hdu_list = fits.open(im_table[0].getdataurl())]
    [hdu_list.info()] *)
Definition fits_open : prog value :=
  v <- load "uvot_services" ;;
  t <- as_services v ;;
  svc <- lift (Py.index t 0) ;;
  cv <- load "coords" ;;
  pos <- as_coord cv ;;
  r <- extern (Search svc pos 0.2 (Some "image/fits")) ;;
  "im_table" ::= r ;;
  _ <- load "fits" ;;
  v <- load "im_table" ;;
  t <- as_images v ;;
  r <- lift (Py.index t 0) ;;
  h <- extern (FitsOpen (getdataurl r)) ;;
  "hdu_list" ::= h ;;
  hv <- load "hdu_list" ;;
  hs <- as_hdus hv ;;
  _ <- extern (HduInfo hs) ;;
  Ret VNone.

(** [plt.imshow(hdu_list[0].data, cmap='gray', origin='lower',vmax=0.1)] *)
Definition imshow : prog value :=
  _ <- load "plt" ;;
  hv <- load "hdu_list" ;;
  hs <- as_hdus hv ;;
  h <- lift (Py.index hs 0) ;;
  extern (Imshow (data h) None (Some 0.1%Q)).

(** [gc = aplpy.FITSFigure(hdu_list,figsize=(5, 5))]
    [gc.show_grayscale(stretch='log', vmax=0.1)] *)
Definition aplpy_figure : prog value :=
  _ <- load "aplpy" ;;
  hv <- load "hdu_list" ;;
  hs <- as_hdus hv ;;
  g <- extern (FitsFigure hs) ;;
  "gc" ::= g ;;
  g <- load "gc" ;;
  _ <- extern (ShowGrayscale g "log" 0.1%Q) ;;
  Ret VNone.

(** [services = vo.regsearch(servicetype='image', keywords=['sloan'], waveband='optical')]
    [services.to_table()[np.where(np.isin(services.to_table()['short_name'], b'SDSSDR7'))]['ivoid', 'short_name']]
    The outer [to_table()] is evaluated first, then the subscript
    expression with its own [to_table()], then the two subscripts. *)
Definition services : prog value :=
  _ <- load "vo" ;;
  r <- extern (RegSearch (Some "image") (Some "optical") (Some ["sloan"])) ;;
  "services" ::= r ;;
  v <- load "services" ;;
  tv <- extern (ToTable v) ;;
  _ <- load "np" ;;
  _ <- load "np" ;;
  v' <- load "services" ;;
  tv' <- extern (ToTable v') ;;
  tbl' <- as_table tv' ;;
  indices <- lift (isin_positions tbl') ;;
  tbl <- as_table tv ;;
  picked <- lift (table_take tbl indices) ;;
  shown <- lift (select_columns ["ivoid"; "short_name"] picked) ;;
  Ret (VTable shown).

(** [heasarc_dr7_service = [s for s in services if 'SDSSDR7' in s.short_name and 'heasarc' in s.ivoid][0]]
    [sdss_table_heasarc = heasarc_dr7_service.search(pos=coords,size=0.2,format='image/fits')]
    [sdss_table_heasarc.to_table()] *)
Definition heasarc : prog value :=
  v <- load "services" ;;
  t <- as_services v ;;
  s <- lift (heasarc_dr7_service t) ;;
  "heasarc_dr7_service" ::= VService s ;;
  sv <- load "heasarc_dr7_service" ;;
  svc <- as_service sv ;;
  cv <- load "coords" ;;
  pos <- as_coord cv ;;
  r <- extern (Search svc pos 0.2 (Some "image/fits")) ;;
  "sdss_table_heasarc" ::= r ;;
  v <- load "sdss_table_heasarc" ;;
  extern (ToTable v).

(** [file_name=download_file(sdss_table_heasarc[0].getdataurl(),cache=True)]
    [hdu_list = fits.open(file_name)]
    [plt.imshow(hdu_list[0].data, cmap='gray', origin='lower', vmax=1200,vmin=1010)] *)
Definition heasarc_download : prog value :=
  _ <- load "download_file" ;;
  v <- load "sdss_table_heasarc" ;;
  t <- as_images v ;;
  r <- lift (Py.index t 0) ;;
  f <- extern (DownloadFile (getdataurl r) true) ;;
  "file_name" ::= f ;;
  _ <- load "fits" ;;
  fv <- load "file_name" ;;
  path <- as_str fv ;;
  h <- extern (FitsOpen path) ;;
  "hdu_list" ::= h ;;
  _ <- load "plt" ;;
  hv <- load "hdu_list" ;;
  hs <- as_hdus hv ;;
  h <- lift (Py.index hs 0) ;;
  extern (Imshow (data h) (Some 1010%Q) (Some 1200%Q)).

(** [jhu_dr7_service = [s for s in services if 'SDSSDR7' in s.short_name and 'jhu' in s.ivoid][0]]
    [sdss_table_jhu=jhu_dr7_service.search(pos=coords,size=0.2, format='')]
    [sdss_table_jhu.to_table().show_in_notebook(display_length = 5)] *)
Definition jhu : prog value :=
  v <- load "services" ;;
  t <- as_services v ;;
  s <- lift (jhu_dr7_service t) ;;
  "jhu_dr7_service" ::= VService s ;;
  sv <- load "jhu_dr7_service" ;;
  svc <- as_service sv ;;
  cv <- load "coords" ;;
  pos <- as_coord cv ;;
  r <- extern (Search svc pos 0.2 (Some "")) ;;
  "sdss_table_jhu" ::= r ;;
  v <- load "sdss_table_jhu" ;;
  tv <- extern (ToTable v) ;;
  extern (ShowInNotebook tv 5).

(** [file_name=download_file(sdss_table_jhu[1].getdataurl(),cache=True)]
    [hdu_list = fits.open(file_name)]
    [plt.imshow(hdu_list[0].data, cmap='gray', origin='lower',vmax=1200,vmin=1010)] *)
Definition jhu_download : prog value :=
  _ <- load "download_file" ;;
  v <- load "sdss_table_jhu" ;;
  t <- as_images v ;;
  r <- lift (Py.index t 1) ;;
  f <- extern (DownloadFile (getdataurl r) true) ;;
  "file_name" ::= f ;;
  _ <- load "fits" ;;
  fv <- load "file_name" ;;
  path <- as_str fv ;;
  h <- extern (FitsOpen path) ;;
  "hdu_list" ::= h ;;
  _ <- load "plt" ;;
  hv <- load "hdu_list" ;;
  hs <- as_hdus hv ;;
  h <- lift (Py.index hs 0) ;;
  extern (Imshow (data h) (Some 1010%Q) (Some 1200%Q)).

(** EXERCISE-InspectingACandidateList, its only code cell: the three
    [warnings.filterwarnings] calls and the imports. *)
Definition exercise_imports : prog value :=
  m <- extern (Import "warnings") ;;
  "warnings" ::= m ;;
  _ <- load "warnings" ;;
  _ <- extern (FilterWarnings "ignore" None (Some "astropy.io.votable.*") false) ;;
  _ <- load "warnings" ;;
  _ <- extern (FilterWarnings "ignore" None (Some "pyvo.utils.xml.*") false) ;;
  _ <- load "warnings" ;;
  _ <- extern (FilterWarnings "ignore" (Some ".*RADECSYS=*") None true) ;;
  m <- extern (Import "matplotlib.pyplot") ;;
  "plt" ::= m ;;
  m <- extern (Import "numpy") ;;
  "np" ::= m ;;
  m <- extern (ImportFrom "astropy.coordinates" "SkyCoord") ;;
  "SkyCoord" ::= m ;;
  m <- extern (ImportFrom "astropy.io" "fits") ;;
  "fits" ::= m ;;
  m <- extern (ImportFrom "astropy.nddata" "Cutout2D") ;;
  "Cutout2D" ::= m ;;
  m <- extern (Import "astropy.visualization") ;;
  "vis" ::= m ;;
  m <- extern (ImportFrom "astropy.wcs" "WCS") ;;
  "WCS" ::= m ;;
  m <- extern (ImportFrom "astroquery.ned" "Ned") ;;
  "Ned" ::= m ;;
  m <- extern (Import "pyvo") ;;
  "vo" ::= m ;;
  Ret VNone.

End Cells.

(** The code cells of the two notebooks, in document order. *)
Inductive cell :=
| Imports | UvServices | UvotServices | ImTable | Url | DisplayJpeg
| FitsOpenCell | ImshowCell | AplpyFigure | Services | Heasarc
| HeasarcDownload | Jhu | JhuDownload | ExerciseImports.

Definition body (c : cell) : prog value :=
  match c with
  | Imports => Cells.imports
  | UvServices => Cells.uv_services
  | UvotServices => Cells.uvot_services
  | ImTable => Cells.im_table
  | Url => Cells.url
  | DisplayJpeg => Cells.display_jpeg
  | FitsOpenCell => Cells.fits_open
  | ImshowCell => Cells.imshow
  | AplpyFigure => Cells.aplpy_figure
  | Services => Cells.services
  | Heasarc => Cells.heasarc
  | HeasarcDownload => Cells.heasarc_download
  | Jhu => Cells.jhu
  | JhuDownload => Cells.jhu_download
  | ExerciseImports => Cells.exercise_imports
  end.

(** The user runs cells one at a time, in any order and any number of
    times; a cell that raises leaves the kernel as it was at the raise. *)
Definition run_cell (w : world) (c : cell) (s : kernel) : result value * kernel :=
  run w (body c) s.

Fixpoint session (w : world) (cs : list cell) (s : kernel) : kernel :=
  match cs with
  | [] => s
  | c :: cs' => session w cs' (run_cell w c s).2
  end.

(** CS_Image_Access from top to bottom. *)
Definition cs_image_access : list cell :=
  [Imports; UvServices; UvotServices; ImTable; Url; DisplayJpeg; FitsOpenCell;
   ImshowCell; AplpyFigure; Services; Heasarc; HeasarcDownload; Jhu; JhuDownload].

(** [try: p / except Exception: p]: a body that tries [p] again when it
    raises.  No cell of the notebooks has this shape; it is what a cell
    with a retry would be, the contrast for the cells as they are. *)
Definition with_retry (p : prog value) : prog value :=
  Try p (fun _ => p) Ret.

(** ** The events of a run *)

(** The events a program adds to the log when started in [s]. *)
Fixpoint emitted {A : Type} (w : world) (p : prog A) (s : kernel) : list event :=
  match p with
  | Ret _ | Throw _ => []
  | Load x k =>
      match ns s !! x with
      | Some v => emitted w (k v) s
      | None => []
      end
  | Store x v k => emitted w k (bind_name x v s)
  | Call c k =>
      let r := w (trace s) c in
      {| ev_call := c; ev_result := r |} ::
      match r with
      | Ok v => emitted w (k v) (log c r s)
      | Raised _ => []
      end
  | Try p h k =>
      emitted w p s ++
      match run w p s with
      | (Ok v, s1) => emitted w (k v) s1
      | (Raised e, s1) =>
          emitted w (h e) s1 ++
          match run w (h e) s1 with
          | (Ok v, s2) => emitted w (k v) s2
          | (Raised _, _) => []
          end
      end
  end.

Definition succeeded (ev : event) : Prop :=
  match ev_result ev with Ok _ => True | Raised _ => False end.

(** ** Where values come from *)

(** [returned tr c v]: the log [tr] holds a call [c] that returned [v]. *)
Definition returned (tr : list event) (c : call) (v : value) : Prop :=
  In {| ev_call := c; ev_result := Ok v |} tr.

Definition registry_gave (tr : list event) (v : value) : Prop :=
  exists st wb kw, returned tr (RegSearch st wb kw) v.

Definition service_known (tr : list event) (svc : Service) : Prop :=
  exists t, registry_gave tr (VServices t) /\ In svc t.

Definition query_gave (tr : list event) (v : value) : Prop :=
  exists svc pos size fmt, returned tr (Search svc pos size fmt) v.

Definition url_known (tr : list event) (u : string) : Prop :=
  exists t r, query_gave tr (VImages t) /\ In r t /\ u = getdataurl r.

Definition downloaded (tr : list event) (v : value) : Prop :=
  exists u cache, returned tr (DownloadFile u cache) v.

Definition opened (tr : list event) (v : value) : Prop :=
  exists src, returned tr (FitsOpen src) v.

Definition figure_made (tr : list event) (v : value) : Prop :=
  exists h, returned tr (FitsFigure h) v.

Definition tabulated (tr : list event) (tv : value) : Prop :=
  exists v, returned tr (ToTable v) tv.

(** What a name of the notebook holds. *)
Inductive role :=
| RServices | RService | RImages | RUrl | RImg | RFile | RHdus | RFigure | ROther.

Definition one_of (x : string) (names : list string) : bool :=
  existsb (String.eqb x) names.

Definition role_of (x : string) : role :=
  if one_of x ["uv_services"; "uvot_services"; "services"] then RServices
  else if one_of x ["heasarc_dr7_service"; "jhu_dr7_service"] then RService
  else if one_of x ["im_table"; "sdss_table_heasarc"; "sdss_table_jhu"] then RImages
  else if one_of x ["url"] then RUrl
  else if one_of x ["img"] then RImg
  else if one_of x ["file_name"] then RFile
  else if one_of x ["hdu_list"] then RHdus
  else if one_of x ["gc"] then RFigure
  else ROther.

(** [origin tr x v]: the value [v] bound to [x] is what a collaborator
    returned earlier in [tr], or was read off such a value. *)
Definition origin (tr : list event) (x : string) (v : value) : Prop :=
  match role_of x with
  | RServices => registry_gave tr v
  | RService => exists s, v = VService s /\ service_known tr s
  | RImages => query_gave tr v
  | RUrl => exists u, v = VStr u /\ url_known tr u
  | RImg => exists u, v = VImage u /\ url_known tr u
  | RFile => downloaded tr v
  | RHdus => opened tr v
  | RFigure => figure_made tr v
  | ROther => True
  end.

(** The three registry searches written in the notebooks. *)
Definition registry_filters : list (option string * option (list string)) :=
  [ (Some "uv", None); (Some "uv", Some ["swift"]); (Some "optical", Some ["sloan"]) ].

(** The format arguments written in the notebooks. *)
Definition formats_passed : list (option string) :=
  [ Some "image/jpeg"; Some "image/fits"; Some "" ].

(** [admissible pre c]: what holds of a call [c] of the notebooks when the
    log so far is [pre]. *)
Definition admissible (pre : list event) (c : call) : Prop :=
  match c with
  | Import _ | ImportFrom _ _ | Magic _ | FilterWarnings _ _ _ _ => True
  | RegSearch st wb kw => st = Some "image" /\ In (wb, kw) registry_filters
  | ToTable v => registry_gave pre v \/ query_gave pre v
  | ShowInNotebook tv n => tabulated pre tv /\ n = 5
  | FromName n => n = "m51"
  | Search svc _ _ fmt => service_known pre svc /\ In fmt formats_passed
  | Print v => exists u, v = VStr u /\ url_known pre u
  | Display v => exists u, v = VImage u /\ url_known pre u
  | FitsOpen src => url_known pre src \/ downloaded pre (VStr src)
  | HduInfo h => opened pre (VHdus h)
  | Imshow px _ _ => exists h h0, opened pre (VHdus h) /\ Py.index h 0 = Ok h0 /\ px = data h0
  | FitsFigure h => opened pre (VHdus h)
  | ShowGrayscale fig _ _ => figure_made pre fig
  | DownloadFile u cache => url_known pre u /\ cache = true
  end.

Definition ordered (tr : list event) : Prop :=
  forall pre ev post, tr = pre ++ ev :: post -> admissible pre (ev_call ev).

(** The invariant of a kernel. *)
Definition inv (s : kernel) : Prop :=
  (forall x v, ns s !! x = Some v -> origin (trace s) x v) /\ ordered (trace s).

Definition fact := list event -> Prop.

Definition mono (F : fact) : Prop := forall tr e, F tr -> F (tr ++ [e]).

(** [triple F p G]: started in a kernel that satisfies the invariant and
    whose log satisfies [F], the program [p] leaves a kernel that
    satisfies the invariant, and [G a] when it returns [a]. *)
Definition triple {A : Type} (w : world) (F : fact) (p : prog A) (G : A -> fact) : Prop :=
  forall s, inv s -> F (trace s) ->
    match run w p s with
    | (Ok a, s') => inv s' /\ G a (trace s')
    | (Raised _, s') => inv s'
    end.

(** [after_query pre u]: the log [pre] holds a query that returned a table
    with a record whose data URL is [u], and that query went to a service
    listed by a registry search made before it. *)
Definition after_query (pre : list event) (u : string) : Prop :=
  exists p1 p2 svc pos size fmt t r,
    pre = p1 ++ {| ev_call := Search svc pos size fmt; ev_result := Ok (VImages t) |} :: p2
    /\ In r t /\ u = getdataurl r /\ service_known p1 svc.

(** [mentions needle hay]: [needle] occurs in [hay] as a substring. *)
Definition mentions (needle hay : string) : Prop :=
  exists a b, hay = a +:+ needle +:+ b.

(** A service that the comprehension keeps for [host]. *)
Definition is_dr7_at (host : string) (s : Service) : Prop :=
  mentions "SDSSDR7" (short_name s) /\ mentions host (ivoid s).

(** ** What a cell body can do, read off its text *)

(** [handler_free p]: no [try] statement occurs in [p]. *)
Fixpoint handler_free {A : Type} (p : prog A) : Prop :=
  match p with
  | Ret _ | Throw _ => True
  | Load _ k => forall v, handler_free (k v)
  | Store _ _ k => handler_free k
  | Call _ k => forall v, handler_free (k v)
  | Try _ _ _ => False
  end.

(** [obeys Pc Ps p]: [p] has no handler, every call written in [p]
    satisfies [Pc] and every name assigned in [p] satisfies [Ps]. *)
Fixpoint obeys {A : Type} (Pc : call -> Prop) (Ps : string -> Prop) (p : prog A) : Prop :=
  match p with
  | Ret _ | Throw _ => True
  | Load _ k => forall v, obeys Pc Ps (k v)
  | Store x _ k => Ps x /\ obeys Pc Ps k
  | Call c k => Pc c /\ forall v, obeys Pc Ps (k v)
  | Try _ _ _ => False
  end.

(** [binds x done p]: [p] has no handler and on every path of [p] that
    returns, [x] has been assigned ([done] tells whether it already was). *)
Fixpoint binds {A : Type} (x : string) (done : bool) (p : prog A) : Prop :=
  match p with
  | Ret _ => done = true
  | Throw _ => True
  | Load _ k => forall v, binds x done (k v)
  | Store y _ k => binds x (done || String.eqb y x) k
  | Call _ k => forall v, binds x done (k v)
  | Try _ _ _ => False
  end.

(** The constant arguments of the calls, as the cells write them. *)
Definition as_written (c : call) : Prop :=
  match c with
  | RegSearch st wb kw => st = Some "image" /\ In (wb, kw) registry_filters
  | FromName n => n = "m51"
  | Search _ _ size fmt => size = 0.2%Q /\ In fmt formats_passed
  | DownloadFile _ cache => cache = true
  | ShowInNotebook _ n => n = 5
  | _ => True
  end.

(** The names each cell assigns. *)
Definition assigned (c : cell) : list string :=
  match c with
  | Imports =>
      ["np"; "matplotlib"; "plt"; "vo"; "fits"; "coord"; "download_file";
       "aplpy"; "ipImage"; "display"; "warnings"]
  | UvServices => ["uv_services"]
  | UvotServices => ["uvot_services"]
  | ImTable => ["coords"; "im_table"]
  | Url => ["url"]
  | DisplayJpeg => ["img"]
  | FitsOpenCell => ["im_table"; "hdu_list"]
  | ImshowCell => []
  | AplpyFigure => ["gc"]
  | Services => ["services"]
  | Heasarc => ["heasarc_dr7_service"; "sdss_table_heasarc"]
  | HeasarcDownload => ["file_name"; "hdu_list"]
  | Jhu => ["jhu_dr7_service"; "sdss_table_jhu"]
  | JhuDownload => ["file_name"; "hdu_list"]
  | ExerciseImports =>
      ["warnings"; "plt"; "np"; "SkyCoord"; "fits"; "Cutout2D"; "vis"; "WCS";
       "Ned"; "vo"]
  end.

(** The two cells that import. *)
Definition is_import_cell (c : cell) : bool :=
  match c with
  | Imports | ExerciseImports => true
  | _ => false
  end.

(** ** What a cell needs *)

(** [reads_first x p]: [p] has no handler and on every path of [p] that
    returns, [x] is read before it is assigned. *)
Fixpoint reads_first {A : Type} (x : string) (p : prog A) : Prop :=
  match p with
  | Ret _ => False
  | Throw _ => True
  | Load y k => y = x \/ forall v, reads_first x (k v)
  | Store y _ k => y <> x /\ reads_first x k
  | Call _ k => forall v, reads_first x (k v)
  | Try _ _ _ => False
  end.

(** The names a cell reads without having assigned them itself. *)
Definition needs (c : cell) : list string :=
  match c with
  | Imports | ExerciseImports => []
  | UvServices | UvotServices => ["vo"]
  | ImTable => ["coord"; "uvot_services"]
  | Url => ["im_table"]
  | DisplayJpeg => ["ipImage"; "im_table"; "display"]
  | FitsOpenCell => ["uvot_services"; "coords"; "fits"]
  | ImshowCell => ["plt"; "hdu_list"]
  | AplpyFigure => ["aplpy"; "hdu_list"]
  | Services => ["vo"; "np"]
  | Heasarc | Jhu => ["services"; "coords"]
  | HeasarcDownload => ["download_file"; "sdss_table_heasarc"; "fits"; "plt"]
  | JhuDownload => ["download_file"; "sdss_table_jhu"; "fits"; "plt"]
  end.

(** [closed bound cs]: each cell of [cs] needs only names of [bound] or
    names assigned by the cells before it in [cs]. *)
Fixpoint closed (bound : list string) (cs : list cell) : bool :=
  match cs with
  | [] => true
  | c :: cs' =>
      forallb (fun x => one_of x bound) (needs c) && closed (bound ++ assigned c) cs'
  end.

(** The result table and the row that each download cell takes its URL
    from: [sdss_table_heasarc[0]] and [sdss_table_jhu[1]]. *)
Definition download_source (c : cell) : option (string * nat) :=
  match c with
  | HeasarcDownload => Some ("sdss_table_heasarc", 0)
  | JhuDownload => Some ("sdss_table_jhu", 1)
  | _ => None
  end.


(** [reads_within R p]: [p] has no handler and every name read in [p] is
    in [R] or was assigned earlier in [p]. *)
Fixpoint reads_within {A : Type} (R : list string) (p : prog A) : Prop :=
  match p with
  | Ret _ | Throw _ => True
  | Load x k => In x R /\ forall v, reads_within R (k v)
  | Store x _ k => reads_within (x :: R) k
  | Call _ k => forall v, reads_within R (k v)
  | Try _ _ _ => False
  end.

(** A world whose answers do not depend on what happened before. *)
Definition stateless (w : world) : Prop :=
  forall tr tr' c, w tr c = w tr' c.

(** ** The steps of a run *)

(** The library entry point of a call. *)
Inductive step :=
| SImport | SMagic | SFilterWarnings | SRegSearch | SToTable | SShowInNotebook
| SFromName | SSearch | SPrint | SDisplay | SFitsOpen | SHduInfo | SImshow
| SFitsFigure | SShowGrayscale | SDownloadFile.

Definition step_of (c : call) : step :=
  match c with
  | Import _ | ImportFrom _ _ => SImport
  | Magic _ => SMagic
  | FilterWarnings _ _ _ _ => SFilterWarnings
  | RegSearch _ _ _ => SRegSearch
  | ToTable _ => SToTable
  | ShowInNotebook _ _ => SShowInNotebook
  | FromName _ => SFromName
  | Search _ _ _ _ => SSearch
  | Print _ => SPrint
  | Display _ => SDisplay
  | FitsOpen _ => SFitsOpen
  | HduInfo _ => SHduInfo
  | Imshow _ _ _ => SImshow
  | FitsFigure _ => SFitsFigure
  | ShowGrayscale _ _ _ => SShowGrayscale
  | DownloadFile _ _ => SDownloadFile
  end.

Definition steps_of (tr : list event) : list step :=
  map (fun ev => step_of (ev_call ev)) tr.

(** The calls of each cell, in the order of its text. *)
Definition steps (c : cell) : list step :=
  match c with
  | Imports =>
      [SImport; SImport; SImport; SMagic; SImport; SImport; SImport; SImport;
       SImport; SImport; SImport; SImport; SFilterWarnings; SFilterWarnings]
  | UvServices | UvotServices => [SRegSearch; SToTable]
  | ImTable => [SFromName; SSearch; SToTable]
  | Url => [SPrint]
  | DisplayJpeg => [SDisplay]
  | FitsOpenCell => [SSearch; SFitsOpen; SHduInfo]
  | ImshowCell => [SImshow]
  | AplpyFigure => [SFitsFigure; SShowGrayscale]
  | Services => [SRegSearch; SToTable; SToTable]
  | Heasarc => [SSearch; SToTable]
  | HeasarcDownload | JhuDownload => [SDownloadFile; SFitsOpen; SImshow]
  | Jhu => [SSearch; SToTable; SShowInNotebook]
  | ExerciseImports =>
      [SImport; SFilterWarnings; SFilterWarnings; SFilterWarnings; SImport;
       SImport; SImport; SImport; SImport; SImport; SImport; SImport; SImport]
  end.

(** [calls ks p]: [p] has no handler and on every path of [p] that
    returns, the calls made are, in this order, calls of the entry points
    [ks]. *)
Fixpoint calls {A : Type} (ks : list step) (p : prog A) : Prop :=
  match p with
  | Ret _ => ks = []
  | Throw _ => True
  | Load _ k => forall v, calls ks (k v)
  | Store _ _ k => calls ks k
  | Call c k =>
      match ks with
      | [] => False
      | k0 :: ks' => step_of c = k0 /\ forall v, calls ks' (k v)
      end
  | Try _ _ _ => False
  end.

(** ** A cooperative world *)

(** The calls whose argument is the kind of object the library expects. *)
Definition sensible (c : call) : Prop :=
  match c with
  | ToTable v => (exists t, v = VServices t) \/ (exists t, v = VImages t)
  | _ => True
  end.

(** What the notebook expects of each answer: a registry search returns a
    table of services (not empty for the [swift] search, holding both DR7
    services for the [sloan] search); [to_table()] a well-formed table,
    which for registry results has one row per service and the columns
    [ivoid], [short_name] and [res_title]; a query a table with at least
    one record (two when the format is the empty string, as in the
    SkyServer cell, which takes row 1); [fits.open] a list with at least
    one HDU; [download_file] a path. *)
Definition answer_ok (c : call) (v : value) : Prop :=
  match c with
  | RegSearch _ _ kw =>
      exists t, v = VServices t /\
        (kw = Some ["swift"] -> t <> []) /\
        (kw = Some ["sloan"] ->
           (exists s, heasarc_dr7_service t = Ok s) /\
           (exists s, jhu_dr7_service t = Ok s))
  | ToTable src =>
      exists tbl, v = VTable tbl /\ well_formed tbl /\
        (forall t, src = VServices t ->
           length (rows tbl) = length t /\
           forall n, In n ["ivoid"; "short_name"; "res_title"] -> In n (colnames tbl))
  | FromName _ => exists c, v = VCoord c
  | Search _ _ _ fmt =>
      exists t, v = VImages t /\ t <> [] /\ (fmt = Some "" -> 2 <= length t)
  | FitsOpen _ => exists h, v = VHdus h /\ h <> []
  | DownloadFile _ _ => exists path, v = VStr path
  | _ => True
  end.

Definition cooperative (w : world) : Prop :=
  forall tr c, sensible c -> exists v, w tr c = Ok v /\ answer_ok c v.

(** What the cells expect of the values bound to their names. *)
Inductive kind :=
| KTable | KFilled | KSloan | KService | KImages | KPair | KCoord | KHdus
| KPath | KAny.

Definition kind_of (x : string) : kind :=
  if one_of x ["uv_services"] then KTable
  else if one_of x ["uvot_services"] then KFilled
  else if one_of x ["services"] then KSloan
  else if one_of x ["heasarc_dr7_service"; "jhu_dr7_service"] then KService
  else if one_of x ["im_table"; "sdss_table_heasarc"] then KImages
  else if one_of x ["sdss_table_jhu"] then KPair
  else if one_of x ["coords"] then KCoord
  else if one_of x ["hdu_list"] then KHdus
  else if one_of x ["file_name"] then KPath
  else KAny.

Definition shape_of (x : string) (v : value) : Prop :=
  match kind_of x with
  | KTable => exists t, v = VServices t
  | KFilled => exists t, v = VServices t /\ t <> []
  | KSloan =>
      exists t, v = VServices t /\
        (exists s, heasarc_dr7_service t = Ok s) /\
        (exists s, jhu_dr7_service t = Ok s)
  | KService => exists s, v = VService s
  | KImages => exists t, v = VImages t /\ t <> []
  | KPair => exists t, v = VImages t /\ 2 <= length t
  | KCoord => exists c, v = VCoord c
  | KHdus => exists h, v = VHdus h /\ h <> []
  | KPath => exists path, v = VStr path
  | KAny => True
  end.

Definition shaped (s : kernel) : Prop :=
  forall x v, ns s !! x = Some v -> shape_of x v.

(** [total w B p Q]: started in a well-shaped kernel in which the names
    of [B] are bound, [p] returns, with a value that satisfies [Q], and
    leaves such a kernel. *)
Definition total {A : Type} (w : world) (B : list string) (p : prog A)
    (Q : A -> Prop) : Prop :=
  forall s, shaped s -> (forall x, In x B -> is_Some (ns s !! x)) ->
    exists a s', run w p s = (Ok a, s') /\ shaped s' /\
                 (forall x, In x B -> is_Some (ns s' !! x)) /\ Q a.

(** ** A scripted world *)

Module Archive.

Definition galex : Service :=
  {| ivoid := "ivo://mast.stsci/siap/galex_atlas"; short_name := "GALEX_Atlas";
     res_title := "GALEX Atlas of Nearby Galaxies";
     access_url := "http://archive.stsci.edu/siap/search.php?id=galex_atlas" |}.

Definition swift_uvot : Service :=
  {| ivoid := "ivo://nasa.heasarc/skyview/swiftuvot"; short_name := "SwiftUVOT";
     res_title := "Swift UVOT Combined Intensity Images";
     access_url := "https://skyview.gsfc.nasa.gov/cgi-bin/vo/sia.pl?survey=swiftuvot" |}.

Definition sdss_siap : Service :=
  {| ivoid := "ivo://sdss.jhu/services/siap-dr12"; short_name := "SDSS SIAP";
     res_title := "Sloan Digital Sky Survey Images";
     access_url := "http://skyserver.sdss.org/SkyserverWS/dr12/SIAP/getSIAP?" |}.

Definition sdss_heasarc : Service :=
  {| ivoid := "ivo://nasa.heasarc/skyview/sdssdr7"; short_name := "SDSSDR7";
     res_title := "Sloan Digital Sky Survey DR7 (SkyView)";
     access_url := "https://skyview.gsfc.nasa.gov/cgi-bin/vo/sia.pl?survey=sdssdr7" |}.

Definition sdss_jhu : Service :=
  {| ivoid := "ivo://sdss.jhu/services/siapdr7-images"; short_name := "SDSSDR7";
     res_title := "Sloan Digital Sky Survey DR7 - Images";
     access_url := "http://skyserver.sdss.org/vo/DR7SIAP/SIAP.asmx/getSiapInfo?&FORMAT=image/fits" |}.

Definition m51 : SkyCoord := {| ra := 202.4696%Q; dec := 47.1952%Q |}.

Definition image (name band : string) : ImageRecord :=
  {| title := name; bandpass_id := band;
     acref := "https://archive.example/" +:+ name +:+ "/" +:+ band |}.

Definition images_of (svc : Service) (kind : string) : list ImageRecord :=
  [ image (short_name svc +:+ kind) "u"; image (short_name svc +:+ kind) "g" ].

Definition blank : list HDU := [ {| hdu_name := "PRIMARY"; data := [[0%Q]] |} ].

(** The table of a registry result with [str] columns. *)
Definition services_table (t : list Service) : Table :=
  {| colnames := ["ivoid"; "res_type"; "short_name"; "res_title"; "access_url"];
     rows := map (fun s => [CStr (ivoid s); CStr "vs:catalogservice";
                            CStr (short_name s); CStr (res_title s);
                            CStr (access_url s)]) t |}.

(** The same table with [bytes] columns. *)
Definition services_table_bytes (t : list Service) : Table :=
  {| colnames := ["ivoid"; "res_type"; "short_name"; "res_title"; "access_url"];
     rows := map (fun s => [CBytes (ivoid s); CBytes "vs:catalogservice";
                            CBytes (short_name s); CBytes (res_title s);
                            CBytes (access_url s)]) t |}.

Definition images_table (t : list ImageRecord) : Table :=
  {| colnames := ["Survey"; "Band"; "URL"];
     rows := map (fun r => [CStr (title r); CStr (bandpass_id r); CStr (acref r)]) t |}.

Definition kind_asked (format : option string) : string :=
  match format with
  | Some f => f
  | None => ""
  end.

Definition answer : world := fun _ c =>
  match c with
  | Import m => Ok (VModule m)
  | ImportFrom m n => Ok (VModule (m +:+ "." +:+ n))
  | Magic _ | FilterWarnings _ _ _ _ => Ok VNone
  | RegSearch _ (Some "uv") None => Ok (VServices [galex; swift_uvot])
  | RegSearch _ (Some "uv") (Some _) => Ok (VServices [swift_uvot])
  | RegSearch _ _ _ => Ok (VServices [sdss_siap; sdss_heasarc; sdss_jhu])
  | ToTable (VServices t) => Ok (VTable (services_table t))
  | ToTable (VImages t) => Ok (VTable (images_table t))
  | ToTable _ => Raised TypeError
  | ShowInNotebook tv _ => Ok tv
  | FromName _ => Ok (VCoord m51)
  | Search svc _ _ format => Ok (VImages (images_of svc (kind_asked format)))
  | Print _ | Display _ | HduInfo _ | Imshow _ _ _ | ShowGrayscale _ _ _ => Ok VNone
  | FitsOpen _ => Ok (VHdus blank)
  | FitsFigure h => Ok (VFigure h)
  | DownloadFile u _ => Ok (VStr ("/home/user/.astropy/cache/download/" +:+ u))
  end.

(** The download of a FITS file "often errors off with a time out
    message": here [fits.open] on a URL times out until it has been tried
    once. *)
Definition tried_open (ev : event) : bool :=
  match ev_call ev with FitsOpen _ => true | _ => false end.

Definition flaky : world := fun tr c =>
  match c with
  | FitsOpen _ =>
      if existsb tried_open tr then answer tr c
      else Raised (LibraryError "timed out")
  | _ => answer tr c
  end.

(** The same archive with a registry that lists every service whatever
    the filters. *)
Definition obliging : world := fun tr c =>
  match c with
  | RegSearch _ _ _ => Ok (VServices [swift_uvot; sdss_heasarc; sdss_jhu])
  | _ => answer tr c
  end.

End Archive.

(** ** Facts about the pure expressions *)

Section PureFacts.

Lemma prefix_app (n h : string) :
  String.prefix n h = true <-> exists post, h = n +:+ post.
Proof.
  revert h. induction n as [|c n IH]; intros h; simpl.
  - destruct h; split; eauto.
  - destruct h as [|d h]; simpl.
    + split; [discriminate | intros [post H]; discriminate].
    + destruct (Ascii.ascii_dec c d) as [->|Hne].
      * rewrite IH. split; intros [post H]; exists post.
        -- by rewrite H.
        -- by injection H.
      * split; [discriminate | intros [post H]; injection H; congruence].
Qed.

(** [str_in] is substring containment. *)
Lemma str_in_spec (n h : string) :
  Py.str_in n h = true <-> exists pre post, h = pre +:+ n +:+ post.
Proof.
  induction h as [|c h IH]; cbn [Py.str_in].
  - destruct (String.prefix n "") eqn:Hp.
    + apply prefix_app in Hp as [post Hp]. split; [|done].
      intros _. exists "", post. exact Hp.
    + split; [discriminate|]. intros (pre & post & H).
      destruct pre; simpl in H; [|discriminate].
      assert (String.prefix n "" = true) by (apply prefix_app; eauto).
      congruence.
  - destruct (String.prefix n (String c h)) eqn:Hp.
    + apply prefix_app in Hp as [post Hp]. split; [|done].
      intros _. exists "", post. exact Hp.
    + rewrite IH. split.
      * intros (pre & post & ->). exists (String c pre), post. done.
      * intros (pre & post & H). destruct pre as [|d pre]; simpl in H.
        -- assert (String.prefix n (String c h) = true)
             by (apply prefix_app; eauto).
           congruence.
        -- injection H as _ ->. eauto.
Qed.

Lemma index_Ok {A} (xs : list A) i x :
  Py.index xs i = Ok x <-> nth_error xs i = Some x.
Proof.
  unfold Py.index. destruct (nth_error xs i); split; congruence.
Qed.


(** Taking the rows that a mask marks is filtering by the mask's test.
    The statement is generalised over the rows [pre] already passed. *)
Lemma take_rows_where_from {A} (p : A -> bool) (pre t : list A) :
  take_rows (pre ++ t) (Np.where_from (length pre) (map p t))
  = Ok (List.filter p t).
Proof.
  revert pre. induction t as [|x t IH]; intros pre; simpl; [done|].
  assert (Hshift : pre ++ x :: t = (pre ++ [x]) ++ t) by by rewrite <- app_assoc.
  assert (Hlen : S (length pre) = length (pre ++ [x]))
    by (rewrite length_app; simpl; lia).
  destruct (p x); simpl.
  - unfold Py.index. rewrite nth_error_app2 by lia.
    rewrite Nat.sub_diag. simpl.
    rewrite Hshift, Hlen, IH. done.
  - rewrite Hshift, Hlen, IH. done.
Qed.

Lemma filter_first {A} (p : A -> bool) (pre post : list A) (x : A) :
  (forall y, In y pre -> p y = false) -> p x = true ->
  List.filter p (pre ++ x :: post) = x :: List.filter p post.
Proof.
  intros Hpre Hx. induction pre as [|y pre IH]; simpl.
  - by rewrite Hx.
  - rewrite (Hpre y) by (by left). apply IH. intros z Hz. apply Hpre. by right.
Qed.

Lemma filter_none {A} (p : A -> bool) (xs : list A) :
  (forall y, In y xs -> p y = false) -> List.filter p xs = [].
Proof.
  induction xs as [|y xs IH]; simpl; intros H; [done|].
  rewrite (H y) by (by left). apply IH. intros z Hz. apply H. by right.
Qed.

End PureFacts.

(** ** Facts about tables *)

Section Tables.

Lemma index_of_lt name names j :
  index_of name names = Some j -> j < length names.
Proof.
  revert j. induction names as [|n names IH]; intros j; simpl; [done|].
  destruct (String.eqb n name).
  - intros [= <-]. lia.
  - destruct (index_of name names) as [i|]; simpl; [|done].
    intros [= <-]. specialize (IH i eq_refl). lia.
Qed.

Lemma index_of_nth name names j :
  index_of name names = Some j -> nth_error names j = Some name.
Proof.
  revert j. induction names as [|n names IH]; intros j; simpl; [done|].
  destruct (String.eqb n name) eqn:Hn.
  - intros [= <-]. apply String.eqb_eq in Hn. by subst.
  - destruct (index_of name names) as [i|]; simpl; [|done].
    intros [= <-]. simpl. by apply IH.
Qed.

Lemma index_of_In name names :
  In name names <-> exists j, index_of name names = Some j.
Proof.
  induction names as [|n names IH]; simpl.
  - split; [done | by intros [j H]].
  - destruct (String.eqb n name) eqn:Hn.
    + apply String.eqb_eq in Hn. split; eauto.
    + apply String.eqb_neq in Hn. rewrite IH. split.
      * intros [H|[j H]]; [done|]. rewrite H. simpl. eauto.
      * intros [j H]. right.
        destruct (index_of name names) as [i|]; [eauto | done].
Qed.

Lemma find_column_Ok tbl name j :
  find_column tbl name = Ok j <-> index_of name (colnames tbl) = Some j.
Proof.
  unfold find_column. destruct (index_of name (colnames tbl)); split; congruence.
Qed.

Lemma find_column_Raised tbl name e :
  find_column tbl name = Raised e <->
  e = KeyError name /\ ~ In name (colnames tbl).
Proof.
  unfold find_column. rewrite index_of_In.
  destruct (index_of name (colnames tbl)) as [j|].
  - split; [done|]. intros [_ H]. destruct H. eauto.
  - split; [intros [= <-] | intros [-> _]; done].
    split; [done|]. by intros [j H].
Qed.

Lemma traverse_Ok {A B} (f : A -> result B) xs ys :
  traverse f xs = Ok ys <-> Forall2 (fun x y => f x = Ok y) xs ys.
Proof.
  revert ys. induction xs as [|x xs IH]; intros ys; simpl.
  - split; [intros [= <-]; constructor | intros H; by inversion H].
  - destruct (f x) as [y|e] eqn:Hx.
    + destruct (traverse f xs) as [ys'|e] eqn:Hxs.
      * split.
        -- intros [= <-]. constructor; [done | by apply IH].
        -- intros H. inversion H as [|? y' ? ys'' Hy Hrest]; subst.
           apply IH in Hrest. congruence.
      * split; [done|]. intros H. inversion H as [|? y' ? ys'' Hy Hrest]; subst.
        apply IH in Hrest. done.
    + split; [done|]. intros H. inversion H; subst. congruence.
Qed.

Lemma traverse_Raised {A B} (f : A -> result B) xs e :
  traverse f xs = Raised e -> exists x, In x xs /\ f x = Raised e.
Proof.
  induction xs as [|x xs IH]; simpl; [done|].
  destruct (f x) as [y|e'] eqn:Hx.
  - destruct (traverse f xs) as [ys'|e'']; [done|].
    intros [= ->]. destruct (IH eq_refl) as (x' & Hin & Hx'). eauto.
  - intros [= ->]. eauto.
Qed.

Lemma traverse_total {A B} (f : A -> result B) xs :
  (forall x, In x xs -> exists y, f x = Ok y) -> exists ys, traverse f xs = Ok ys.
Proof.
  intros H. destruct (traverse f xs) as [ys|e] eqn:Ht; [eauto|].
  apply traverse_Raised in Ht as (x & Hin & Hx).
  destruct (H x Hin) as [y Hy]. congruence.
Qed.

Lemma Forall2_nth_error_l {A B} (P : A -> B -> Prop) xs ys k x :
  Forall2 P xs ys -> nth_error xs k = Some x ->
  exists y, nth_error ys k = Some y /\ P x y.
Proof.
  intros H. revert k. induction H as [|x0 y0 xs ys H0 _ IH]; intros k.
  - by destruct k.
  - destruct k as [|k]; simpl; [intros [= <-]; eauto | apply IH].
Qed.

Lemma Forall2_In_left {A B} (P : A -> B -> Prop) xs ys x :
  Forall2 P xs ys -> In x xs -> exists y, In y ys /\ P x y.
Proof.
  induction 1 as [|x0 y0 xs ys H0 _ IH]; simpl; [done|].
  intros [<-|Hin]; [eauto|]. destruct (IH Hin) as (y & Hy & HP). eauto.
Qed.

Lemma Forall2_In_right {A B} (P : A -> B -> Prop) xs ys y :
  Forall2 P xs ys -> In y ys -> exists x, In x xs /\ P x y.
Proof.
  induction 1 as [|x0 y0 xs ys H0 _ IH]; simpl; [done|].
  intros [<-|Hin]; [eauto|]. destruct (IH Hin) as (x & Hx & HP). eauto.
Qed.

Lemma Forall2_and_left {A B} (P : A -> B -> Prop) (Q : A -> Prop) xs ys :
  Forall2 P xs ys -> Forall Q xs -> Forall2 (fun x y => P x y /\ Q x) xs ys.
Proof.
  induction 1 as [|x y xs ys H0 _ IH]; intros HQ; [constructor|].
  inversion HQ; subst. constructor; [done | by apply IH].
Qed.

Lemma traverse_length {A B} (f : A -> result B) xs ys :
  traverse f xs = Ok ys -> length ys = length xs.
Proof.
  intros H. apply traverse_Ok in H. symmetry. by eapply Forall2_length.
Qed.

(** The mask of a column read off the rows. *)
Lemma column_mask j v (rs : list (list cellv)) col :
  traverse (fun row => Py.index row j) rs = Ok col ->
  map (fun x => cell_eqb x v) col
  = map (fun row => match nth_error row j with
                    | Some c => cell_eqb c v
                    | None => false
                    end) rs.
Proof.
  intros H. apply traverse_Ok in H.
  induction H as [|row c rs col Hrow _ IH]; simpl; [done|].
  apply index_Ok in Hrow. rewrite Hrow, IH. done.
Qed.

Lemma column_total tbl name j :
  index_of name (colnames tbl) = Some j -> well_formed tbl ->
  exists col, column tbl name = Ok col.
Proof.
  intros Hj Hwf. unfold column, find_column. rewrite Hj.
  apply traverse_total. intros row Hin.
  unfold well_formed in Hwf. rewrite List.Forall_forall in Hwf.
  specialize (Hwf row Hin). apply index_of_lt in Hj.
  destruct (nth_error row j) as [c|] eqn:Hc.
  - exists c. by apply index_Ok.
  - apply nth_error_None in Hc. lia.
Qed.

(** The row filter on one table is the filter by [is_sdssdr7]. *)
Lemma sdssdr7_rows_filter tbl j :
  index_of "short_name" (colnames tbl) = Some j -> well_formed tbl ->
  sdssdr7_rows tbl
  = Ok {| colnames := colnames tbl;
          rows := List.filter (is_sdssdr7 j) (rows tbl) |}.
Proof.
  intros Hj Hwf. destruct (column_total tbl "short_name" j Hj Hwf) as [col Hcol].
  unfold sdssdr7_rows, rows_where_isin, isin_positions. rewrite Hcol.
  unfold column, find_column in Hcol. rewrite Hj in Hcol.
  unfold table_take, Np.where_, Np.isin.
  rewrite (column_mask j (CBytes "SDSSDR7") _ _ Hcol).
  pose proof (take_rows_where_from (is_sdssdr7 j) [] (rows tbl)) as Ht.
  simpl in Ht. unfold is_sdssdr7 in Ht at 1. by rewrite Ht.
Qed.

(** A [str] cell is never equal to the bytes literal. *)
Lemma is_sdssdr7_bytes j row :
  is_sdssdr7 j row = true <-> nth_error row j = Some (CBytes "SDSSDR7").
Proof.
  unfold is_sdssdr7. destruct (nth_error row j) as [[s|b]|]; simpl.
  - split; done.
  - rewrite String.eqb_eq. split; [by intros -> | by intros [= ->]].
  - split; done.
Qed.

Lemma filter_sublist {A} (p : A -> bool) (xs : list A) :
  sublist (List.filter p xs) xs.
Proof.
  induction xs as [|x xs IH]; simpl; [constructor|].
  destruct (p x); by constructor.
Qed.

Lemma take_rows_total {A} (t : list A) indices :
  Forall (fun i => i < length t) indices -> exists rs, take_rows t indices = Ok rs.
Proof.
  induction 1 as [|i indices Hi _ [rs IH]]; simpl; [eauto|].
  destruct (nth_error t i) as [r|] eqn:Hr.
  - apply index_Ok in Hr. rewrite Hr, IH. eauto.
  - apply nth_error_None in Hr. lia.
Qed.

Lemma take_rows_In {A} (t : list A) indices rs :
  take_rows t indices = Ok rs -> forall r, In r rs -> In r t.
Proof.
  revert rs. induction indices as [|i indices IH]; intros rs; simpl.
  - intros [= <-]. done.
  - destruct (Py.index t i) as [r0|] eqn:Hr; [|done].
    destruct (take_rows t indices) as [rs0|]; [|done].
    intros [= <-] r [<-|Hin].
    + apply index_Ok in Hr. by eapply nth_error_In.
    + by eapply IH.
Qed.

Lemma where_from_lt i mask :
  Forall (fun k => k < i + length mask) (Np.where_from i mask).
Proof.
  revert i. induction mask as [|b mask IH]; intros i; simpl; [constructor|].
  specialize (IH (S i)).
  assert (Forall (fun k => k < i + S (length mask)) (Np.where_from (S i) mask)).
  { eapply Forall_impl; [exact IH|]. simpl. intros; lia. }
  destruct b; [constructor; [lia | done] | done].
Qed.

(** The column selection returns exactly when the table has the columns
    (and its rows are long enough); it keeps the number of rows, and each
    cell of the result is the cell of the column of that name. *)
Lemma select_columns_Ok names tbl shown :
  select_columns names tbl = Ok shown ->
  colnames shown = names /\
  length (rows shown) = length (rows tbl) /\
  (forall n, In n names -> In n (colnames tbl)) /\
  Forall2 (fun row srow =>
             length srow = length names /\
             forall k n, nth_error names k = Some n ->
               exists j, index_of n (colnames tbl) = Some j /\
                         nth_error row j = nth_error srow k /\
                         is_Some (nth_error srow k))
          (rows tbl) (rows shown).
Proof.
  unfold select_columns.
  destruct (traverse (find_column tbl) names) as [js|] eqn:Hjs; [|done].
  destruct (traverse _ (rows tbl)) as [rs|] eqn:Hrs; [|done].
  intros [= <-]. simpl. apply traverse_Ok in Hjs.
  split; [done|]. split; [by eapply traverse_length|]. split.
  - intros n Hn. apply index_of_In.
    apply (Forall2_In_left (fun x y => find_column tbl x = Ok y) names js n Hjs) in Hn.
    destruct Hn as (j & _ & Hj). exists j. by apply find_column_Ok.
  - apply traverse_Ok in Hrs. eapply Forall2_impl; [exact Hrs|].
    simpl. intros row srow Hrow. split.
    { apply traverse_length in Hrow. rewrite Hrow. symmetry.
      by eapply Forall2_length. }
    intros k n Hk. apply traverse_Ok in Hrow.
    destruct (Forall2_nth_error_l _ _ _ _ _ Hjs Hk) as (j & Hj & Hfind).
    destruct (Forall2_nth_error_l _ _ _ _ _ Hrow Hj) as (c & Hc & Hidx).
    exists j. apply find_column_Ok in Hfind. apply index_Ok in Hidx.
    rewrite Hidx, Hc. eauto.
Qed.

Lemma select_columns_total names tbl :
  well_formed tbl -> (forall n, In n names -> In n (colnames tbl)) ->
  exists shown, select_columns names tbl = Ok shown.
Proof.
  intros Hwf Hnames. unfold select_columns.
  destruct (traverse_total (find_column tbl) names) as [js Hjs].
  { intros n Hn. apply Hnames, index_of_In in Hn as [j Hj].
    exists j. by apply find_column_Ok. }
  rewrite Hjs. apply traverse_Ok in Hjs.
  destruct (traverse_total (fun row => traverse (Py.index row) js) (rows tbl))
    as [rs Hrs]; [|rewrite Hrs; eauto].
  intros row Hrow. apply traverse_total. intros j Hj.
  unfold well_formed in Hwf. rewrite List.Forall_forall in Hwf.
  specialize (Hwf row Hrow).
  apply (Forall2_In_right (fun x y => find_column tbl x = Ok y) names js j Hjs) in Hj.
  destruct Hj as (n & _ & Hn). apply find_column_Ok, index_of_lt in Hn.
  destruct (nth_error row j) as [c|] eqn:Hc.
  - exists c. by apply index_Ok.
  - apply nth_error_None in Hc. lia.
Qed.

(** A column missing from the table is a [KeyError] for the first such
    name. *)
Lemma select_columns_KeyError names tbl pre n post :
  names = pre ++ n :: post ->
  (forall m, In m pre -> In m (colnames tbl)) -> ~ In n (colnames tbl) ->
  select_columns names tbl = Raised (KeyError n).
Proof.
  intros -> Hpre Hn. unfold select_columns.
  assert (traverse (find_column tbl) (pre ++ n :: post) = Raised (KeyError n)) as ->; [|done].
  induction pre as [|m pre IH]; simpl.
  - assert (find_column tbl n = Raised (KeyError n)) as ->; [|done].
    by apply find_column_Raised.
  - destruct (proj1 (index_of_In m (colnames tbl)) (Hpre m (or_introl eq_refl))) as [j Hj].
    apply find_column_Ok in Hj. rewrite Hj, IH; [done|].
    intros m' Hm'. apply Hpre. by right.
Qed.

Lemma table_take_wf tbl indices picked :
  well_formed tbl -> table_take tbl indices = Ok picked ->
  well_formed picked /\ colnames picked = colnames tbl.
Proof.
  unfold table_take. intros Hwf.
  destruct (take_rows (rows tbl) indices) as [rs|] eqn:Hrs; [|done].
  intros [= <-]. split; [|done]. unfold well_formed in *. simpl.
  rewrite List.Forall_forall in *. intros row Hrow. apply Hwf.
  by eapply take_rows_In.
Qed.

(** On a well-formed table with the columns [ivoid] and [short_name] the
    whole display expression of the registry cell returns. *)
Lemma isin_positions_total tbl :
  well_formed tbl -> In "short_name" (colnames tbl) ->
  exists indices, isin_positions tbl = Ok indices /\
                  Forall (fun i => i < length (rows tbl)) indices.
Proof.
  intros Hwf Hin. apply index_of_In in Hin as [j Hj].
  destruct (column_total tbl "short_name" j Hj Hwf) as [col Hcol].
  unfold isin_positions. rewrite Hcol. eexists. split; [done|].
  unfold column, find_column in Hcol. rewrite Hj in Hcol.
  apply traverse_length in Hcol. unfold Np.where_, Np.isin.
  pose proof (where_from_lt 0 (map (fun x => cell_eqb x (CBytes "SDSSDR7")) col)) as H.
  rewrite length_map, Hcol in H. exact H.
Qed.

End Tables.

(** ** The interpreter: general facts *)

Section Interpreter.
Context (w : world).

Lemma run_bind {A B : Type} (p : prog A) (f : A -> prog B) (s : kernel) :
  run w (bind p f) s =
  match run w p s with
  | (Ok a, s') => run w (f a) s'
  | (Raised e, s') => (Raised e, s')
  end.
Proof.
  revert s.
  induction p as [A a|A e|A x k IH|A x v k IH|A c k IH|A q IHq h IHh k IH];
    intros s; simpl; try done.
  - destruct (ns s !! x); [apply IH | done].
  - destruct (w (trace s) c); [apply IH | done].
  - destruct (run w q s) as [[v|e] s1].
    + apply IH.
    + destruct (run w (h e) s1) as [[v|e'] s2]; [apply IH | done].
Qed.

Lemma trace_run {A : Type} (p : prog A) (s : kernel) :
  trace (run w p s).2 = trace s ++ emitted w p s.
Proof.
  revert s.
  induction p as [A a|A e|A x k IH|A x v k IH|A c k IH|A q IHq h IHh k IH];
    intros s; simpl.
  - by rewrite app_nil_r.
  - by rewrite app_nil_r.
  - destruct (ns s !! x); [apply IH | by rewrite app_nil_r].
  - by rewrite IH.
  - destruct (w (trace s) c) as [v|e] eqn:Hw.
    + rewrite IH. simpl. by rewrite <- app_assoc.
    + done.
  - specialize (IHq s). destruct (run w q s) as [[v|e] s1]; simpl in IHq.
    + rewrite IH, IHq. by rewrite <- app_assoc.
    + specialize (IHh e s1).
      destruct (run w (h e) s1) as [[v|e'] s2]; simpl in IHh.
      * rewrite IH, IHh, IHq. by rewrite <- !app_assoc.
      * simpl. rewrite IHh, IHq, app_nil_r. by rewrite <- !app_assoc.
Qed.

Lemma emitted_bind {A B : Type} (p : prog A) (f : A -> prog B) (s : kernel) :
  emitted w (bind p f) s =
  emitted w p s ++
  match run w p s with
  | (Ok a, s') => emitted w (f a) s'
  | (Raised _, _) => []
  end.
Proof.
  revert s.
  induction p as [A a|A e|A x k IH|A x v k IH|A c k IH|A q IHq h IHh k IH];
    intros s; simpl; try done.
  - destruct (ns s !! x); [apply IH | done].
  - destruct (w (trace s) c); [by rewrite IH | done].
  - destruct (run w q s) as [[v|e] s1].
    + rewrite IH. by rewrite <- app_assoc.
    + destruct (run w (h e) s1) as [[v|e'] s2].
      * rewrite IH. by rewrite <- !app_assoc.
      * by rewrite !app_nil_r.
Qed.

(** In a program without a handler a call that raises ends the program:
    it is the last event the program emits and its exception is the
    program's outcome. *)
Lemma emitted_raise_last {A : Type} (p : prog A) (s : kernel) pre ev post e :
  handler_free p ->
  emitted w p s = pre ++ ev :: post ->
  ev_result ev = Raised e ->
  post = [] /\ (run w p s).1 = Raised e.
Proof.
  revert s pre.
  induction p as [A a|A e'|A x k IH|A x v k IH|A c k IH|A q IHq h IHh k IH];
    intros s pre Hfree; simpl in *.
  - by destruct pre.
  - by destruct pre.
  - destruct (ns s !! x); [by apply IH | by destruct pre].
  - by apply IH.
  - destruct (w (trace s) c) as [v|e'] eqn:Hw; intros Hem Hev.
    + destruct pre as [|e0 pre]; simpl in Hem.
      * injection Hem as <- _. simpl in Hev. congruence.
      * injection Hem as _ Hem. by eapply IH.
    + destruct pre as [|e0 pre]; simpl in Hem.
      * injection Hem as <- <-. simpl in Hev. by injection Hev as ->.
      * injection Hem as _ Hem. by destruct pre.
  - done.
Qed.

(** Every event before the last one returned normally. *)
Lemma emitted_init_ok {A : Type} (p : prog A) (s : kernel) pre ev :
  handler_free p ->
  In ev pre -> (exists post last, emitted w p s = pre ++ post ++ [last]) ->
  succeeded ev.
Proof.
  intros Hfree Hin (post & last & Hem).
  apply in_split in Hin as (l1 & l2 & ->).
  unfold succeeded. destruct (ev_result ev) as [v|e] eqn:Hev; [done|].
  rewrite <- app_assoc in Hem. simpl in Hem.
  destruct (emitted_raise_last p s l1 ev (l2 ++ post ++ [last]) e Hfree Hem Hev)
    as [Hnil _].
  destruct l2; simpl in Hnil; [destruct post|]; discriminate.
Qed.

End Interpreter.

(** ** The invariant: rules *)

Section Provenance.
Context (w : world).

Lemma returned_mono c v : mono (fun tr => returned tr c v).
Proof. intros tr e H. apply in_or_app. by left. Qed.

Lemma registry_gave_mono v : mono (fun tr => registry_gave tr v).
Proof. intros tr e (st & wb & kw & H). exists st, wb, kw. by apply returned_mono. Qed.

Lemma service_known_mono svc : mono (fun tr => service_known tr svc).
Proof. intros tr e (t & H & Hin). exists t. split; [by apply registry_gave_mono | done]. Qed.

Lemma query_gave_mono v : mono (fun tr => query_gave tr v).
Proof.
  intros tr e (svc & pos & size & fmt & H). exists svc, pos, size, fmt.
  by apply returned_mono.
Qed.

Lemma url_known_mono u : mono (fun tr => url_known tr u).
Proof.
  intros tr e (t & r & H & Hin & Hu). exists t, r.
  split; [by apply query_gave_mono | done].
Qed.

Lemma downloaded_mono v : mono (fun tr => downloaded tr v).
Proof. intros tr e (u & c & H). exists u, c. by apply returned_mono. Qed.

Lemma opened_mono v : mono (fun tr => opened tr v).
Proof. intros tr e (src & H). exists src. by apply returned_mono. Qed.

Lemma figure_made_mono v : mono (fun tr => figure_made tr v).
Proof. intros tr e (h & H). exists h. by apply returned_mono. Qed.

Lemma tabulated_mono v : mono (fun tr => tabulated tr v).
Proof. intros tr e (src & H). exists src. by apply returned_mono. Qed.

Lemma origin_mono x v : mono (fun tr => origin tr x v).
Proof.
  intros tr e. unfold origin. destruct (role_of x); try done.
  - apply registry_gave_mono.
  - intros (s & -> & H). exists s. split; [done | by apply service_known_mono].
  - apply query_gave_mono.
  - intros (u & -> & H). exists u. split; [done | by apply url_known_mono].
  - intros (u & -> & H). exists u. split; [done | by apply url_known_mono].
  - apply downloaded_mono.
  - apply opened_mono.
  - apply figure_made_mono.
Qed.

Lemma mono_and (F G : fact) : mono F -> mono G -> mono (fun tr => F tr /\ G tr).
Proof. intros HF HG tr e [H1 H2]. split; [by apply HF | by apply HG]. Qed.

Lemma mono_pure (P : Prop) : mono (fun _ => P).
Proof. by intros tr e H. Qed.

Lemma ordered_nil : ordered [].
Proof. intros pre ev post H. by destruct pre. Qed.

Lemma ordered_snoc tr ev :
  ordered tr -> admissible tr (ev_call ev) -> ordered (tr ++ [ev]).
Proof.
  intros Htr Hev pre ev' post Heq.
  destruct post as [|e1 post _] using rev_ind.
  - apply app_inj_tail in Heq as [-> ->]. done.
  - rewrite app_comm_cons, app_assoc in Heq.
    apply app_inj_tail in Heq as [-> _]. by eapply Htr.
Qed.

Lemma inv_fresh : inv fresh.
Proof.
  split; [|apply ordered_nil].
  intros x v H. simpl in H. by rewrite lookup_empty in H.
Qed.

Lemma t_weaken {A : Type} (F : fact) (p : prog A) (G G' : A -> fact) :
  triple w F p G -> (forall a tr, G a tr -> G' a tr) -> triple w F p G'.
Proof.
  intros Hp HG s Hs HF. specialize (Hp s Hs HF).
  destruct (run w p s) as [[a|e] s']; [|done].
  destruct Hp. split; [done | by apply HG].
Qed.

Lemma t_bind {A B : Type} (F : fact) (p : prog A) (G : A -> fact)
      (f : A -> prog B) (H : B -> fact) :
  triple w F p G -> (forall a, triple w (G a) (f a) H) -> triple w F (bind p f) H.
Proof.
  intros Hp Hf s Hs HF. rewrite run_bind. specialize (Hp s Hs HF).
  destruct (run w p s) as [[a|e] s']; [|done].
  destruct Hp as [Hs' HG]. by apply Hf.
Qed.

Lemma t_ret {A : Type} (F : fact) (a : A) : triple w F (Ret a) (fun a' tr => F tr /\ a' = a).
Proof. by intros s Hs HF. Qed.

Lemma t_load (F : fact) (x : string) :
  triple w F (load x) (fun v tr => F tr /\ origin tr x v).
Proof.
  intros s Hs HF. simpl. destruct (ns s !! x) as [v|] eqn:Hx; [|done].
  split; [done|]. split; [done|]. by apply Hs.
Qed.

Lemma t_store {A : Type} (F : fact) (x : string) (v : value) (k : prog A) (G : A -> fact) :
  (forall tr, F tr -> origin tr x v) -> triple w F k G -> triple w F (Store x v k) G.
Proof.
  intros Hv Hk s [Hns Htr] HF. simpl. apply Hk; [|done].
  split; [|done]. intros y v'. simpl.
  destruct (decide (x = y)) as [<-|Hne].
  - rewrite lookup_insert_eq. intros [= <-]. by apply Hv.
  - rewrite lookup_insert_ne by done. apply Hns.
Qed.

Lemma t_extern (F : fact) (c : call) :
  mono F -> (forall tr, F tr -> admissible tr c) ->
  triple w F (extern c) (fun v tr => F tr /\ returned tr c v).
Proof.
  intros HF Hc s [Hns Htr] Hs. simpl.
  assert (Hinv : inv (log c (w (trace s) c) s)).
  { split.
    - intros x v Hx. apply origin_mono. by apply Hns.
    - apply ordered_snoc; [done | by apply Hc]. }
  destruct (w (trace s) c) as [v|e] eqn:Hw; [|done].
  split; [done|]. split; [by apply HF|].
  apply in_or_app. right. by left.
Qed.

Lemma t_lift {A : Type} (F : fact) (r : result A) :
  triple w F (lift r) (fun a tr => F tr /\ r = Ok a).
Proof. intros s Hs HF. by destruct r. Qed.

Lemma t_as_services (F : fact) v :
  triple w F (as_services v) (fun t tr => F tr /\ v = VServices t).
Proof. intros s Hs HF. by destruct v. Qed.

Lemma t_as_service (F : fact) v :
  triple w F (as_service v) (fun t tr => F tr /\ v = VService t).
Proof. intros s Hs HF. by destruct v. Qed.

Lemma t_as_images (F : fact) v :
  triple w F (as_images v) (fun t tr => F tr /\ v = VImages t).
Proof. intros s Hs HF. by destruct v. Qed.

Lemma t_as_hdus (F : fact) v :
  triple w F (as_hdus v) (fun t tr => F tr /\ v = VHdus t).
Proof. intros s Hs HF. by destruct v. Qed.

Lemma t_as_coord (F : fact) v :
  triple w F (as_coord v) (fun t tr => F tr /\ v = VCoord t).
Proof. intros s Hs HF. by destruct v. Qed.

Lemma t_as_str (F : fact) v :
  triple w F (as_str v) (fun t tr => F tr /\ v = VStr t).
Proof. intros s Hs HF. by destruct v. Qed.

Lemma t_as_table (F : fact) v :
  triple w F (as_table v) (fun t tr => F tr /\ v = VTable t).
Proof. intros s Hs HF. by destruct v. Qed.

Lemma triple_inv {A : Type} (p : prog A) (G : A -> fact) (s : kernel) :
  triple w (fun _ => True) p G -> inv s -> inv (run w p s).2.
Proof.
  intros Hp Hs. specialize (Hp s Hs I).
  destruct (run w p s) as [[a|e] s']; [by destruct Hp | done].
Qed.

End Provenance.

(** ** Every cell keeps the invariant *)

Section CellsSafe.
Context (w : world).

Lemma index_In {A : Type} (xs : list A) i x : Py.index xs i = Ok x -> In x xs.
Proof. intros H. apply index_Ok in H. by eapply nth_error_In. Qed.

Lemma select_dr7_In host t s : select_dr7 host t = Ok s -> In s t.
Proof.
  intros H. apply index_In in H. unfold Py.comprehension in H.
  by apply filter_In in H as [H _].
Qed.

Ltac mono_tac :=
  repeat lazymatch goal with
  | |- mono (fun tr => @?P tr /\ @?Q tr) => apply (mono_and P Q)
  | |- mono (fun tr => origin tr ?x ?v) => apply (origin_mono x v)
  | |- mono (fun tr => returned tr ?c ?v) => apply (returned_mono c v)
  | |- mono (fun _ => ?P) => apply (mono_pure P)
  end.

(** One statement of a cell body. *)
Ltac step :=
  lazymatch goal with
  | |- triple _ _ (bind (load _) _) _ =>
      eapply t_bind; [apply t_load | intros ?; cbv beta]
  | |- triple _ _ (bind (extern _) _) _ =>
      eapply t_bind; [apply t_extern; [mono_tac | ] | intros ?; cbv beta]
  | |- triple _ _ (bind (lift _) _) _ =>
      eapply t_bind; [apply t_lift | intros ?; cbv beta]
  | |- triple _ _ (bind (as_services _) _) _ =>
      eapply t_bind; [apply t_as_services | intros ?; cbv beta]
  | |- triple _ _ (bind (as_service _) _) _ =>
      eapply t_bind; [apply t_as_service | intros ?; cbv beta]
  | |- triple _ _ (bind (as_images _) _) _ =>
      eapply t_bind; [apply t_as_images | intros ?; cbv beta]
  | |- triple _ _ (bind (as_hdus _) _) _ =>
      eapply t_bind; [apply t_as_hdus | intros ?; cbv beta]
  | |- triple _ _ (bind (as_coord _) _) _ =>
      eapply t_bind; [apply t_as_coord | intros ?; cbv beta]
  | |- triple _ _ (bind (as_str _) _) _ =>
      eapply t_bind; [apply t_as_str | intros ?; cbv beta]
  | |- triple _ _ (bind (as_table _) _) _ =>
      eapply t_bind; [apply t_as_table | intros ?; cbv beta]
  | |- triple _ _ (Store _ _ _) _ => apply t_store
  | |- triple _ _ (Ret _) _ => eapply t_weaken; [apply t_ret | intros; exact I]
  | |- triple _ _ (extern _) _ =>
      eapply t_weaken; [apply t_extern; [mono_tac | ] | intros; exact I]
  end.

Ltac eval_roles :=
  unfold origin in *;
  repeat match goal with
  | |- context [role_of ?x] =>
      let r := eval vm_compute in (role_of x) in change (role_of x) with r
  | H : context [role_of ?x] |- _ =>
      let r := eval vm_compute in (role_of x) in change (role_of x) with r in H
  end;
  cbv beta iota in *.

(** The side conditions: what is known about the log gives the origin of
    the value stored, or the admissibility of the call made. *)
Ltac side :=
  intros tr HF;
  repeat match goal with H : _ /\ _ |- _ => destruct H end;
  eval_roles;
  repeat match goal with
  | H : exists _, _ |- _ => destruct H
  | H : _ /\ _ |- _ => destruct H
  end;
  simplify_eq;
  repeat match goal with
  | H : heasarc_dr7_service _ = Ok _ |- _ => apply select_dr7_In in H
  | H : jhu_dr7_service _ = Ok _ |- _ => apply select_dr7_In in H
  end;
  repeat match goal with
  | H : Py.index _ _ = Ok _ |- _ => apply index_In in H as ?; revert H
  end; intros;
  cbn [admissible];
  unfold service_known, url_known, registry_gave, query_gave, downloaded,
    opened, figure_made, tabulated, registry_filters, formats_passed in *;
  simpl; first [ exact I | reflexivity | solve [ intuition eauto 15 ] ].

Lemma cell_safe (c : cell) : triple w (fun _ => True) (body c) (fun _ _ => True).
Proof.
  destruct c; cbn [body].
  all: lazymatch goal with |- triple _ _ ?p _ => unfold p end.
  all: repeat step.
  all: side.
Qed.

Lemma run_cell_inv (c : cell) (s : kernel) : inv s -> inv (run_cell w c s).2.
Proof. apply (triple_inv w (body c) (fun _ _ => True) s), cell_safe. Qed.

(** Whatever cells the user runs, in whatever order, starting from a
    fresh kernel. *)
Lemma session_inv_from (cs : list cell) (s : kernel) : inv s -> inv (session w cs s).
Proof.
  revert s. induction cs as [|c cs IH]; intros s Hs; simpl; [done|].
  apply IH. by apply run_cell_inv.
Qed.

Lemma session_inv (cs : list cell) : inv (session w cs fresh).
Proof. apply session_inv_from, inv_fresh. Qed.

End CellsSafe.

(** ** Facts read off the text of the cells *)

Section Static.
Context (w : world).

Lemma obeys_bind {A B : Type} Pc Ps (p : prog A) (f : A -> prog B) :
  obeys Pc Ps p -> (forall a, obeys Pc Ps (f a)) -> obeys Pc Ps (bind p f).
Proof.
  revert B f.
  induction p as [A a|A e|A x k IH|A x v k IH|A c k IH|A q IHq h IHh k IH];
    intros B f Hp Hf; simpl in *.
  - apply Hf.
  - done.
  - intros v. by apply IH.
  - destruct Hp. split; [done | by apply IH].
  - destruct Hp as [Hc Hk]. split; [done|]. intros v. by apply IH.
  - done.
Qed.

Lemma obeys_load Pc Ps x : obeys Pc Ps (load x).
Proof. by intros v. Qed.

Lemma obeys_extern (Pc : call -> Prop) Ps c : Pc c -> obeys Pc Ps (extern c).
Proof. by split. Qed.

Lemma obeys_lift {A : Type} Pc Ps (r : result A) : obeys Pc Ps (lift r).
Proof. by destruct r. Qed.

Lemma obeys_as_services Pc Ps v : obeys Pc Ps (as_services v).
Proof. by destruct v. Qed.
Lemma obeys_as_service Pc Ps v : obeys Pc Ps (as_service v).
Proof. by destruct v. Qed.
Lemma obeys_as_images Pc Ps v : obeys Pc Ps (as_images v).
Proof. by destruct v. Qed.
Lemma obeys_as_hdus Pc Ps v : obeys Pc Ps (as_hdus v).
Proof. by destruct v. Qed.
Lemma obeys_as_coord Pc Ps v : obeys Pc Ps (as_coord v).
Proof. by destruct v. Qed.
Lemma obeys_as_str Pc Ps v : obeys Pc Ps (as_str v).
Proof. by destruct v. Qed.
Lemma obeys_as_table Pc Ps v : obeys Pc Ps (as_table v).
Proof. by destruct v. Qed.

Lemma obeys_store {A : Type} Pc (Ps : string -> Prop) x v (k : prog A) :
  Ps x -> obeys Pc Ps k -> obeys Pc Ps (Store x v k).
Proof. by split. Qed.

Lemma obeys_handler_free {A : Type} Pc Ps (p : prog A) :
  obeys Pc Ps p -> handler_free p.
Proof.
  induction p as [A a|A e|A x k IH|A x v k IH|A c k IH|A q IHq h IHh k IH];
    simpl; try done.
  - intros H v. by apply IH.
  - intros [_ H]. by apply IH.
  - intros [_ H] v. by apply IH.
Qed.

(** Every event a program emits is a call written in it. *)
Lemma obeys_emitted {A : Type} Pc Ps (p : prog A) (s : kernel) :
  obeys Pc Ps p -> Forall (fun ev => Pc (ev_call ev)) (emitted w p s).
Proof.
  revert s.
  induction p as [A a|A e|A x k IH|A x v k IH|A c k IH|A q IHq h IHh k IH];
    intros s Hp; simpl in *.
  - constructor.
  - constructor.
  - destruct (ns s !! x); [by apply IH | constructor].
  - apply IH. by destruct Hp.
  - destruct Hp as [Hc Hk]. constructor; [done|].
    destruct (w (trace s) c); [by apply IH | constructor].
  - done.
Qed.

(** A program changes only the names assigned in it. *)
Lemma obeys_frame {A : Type} Pc (Ps : string -> Prop) (p : prog A) (s : kernel) y :
  obeys Pc Ps p -> ~ Ps y -> ns (run w p s).2 !! y = ns s !! y.
Proof.
  revert s.
  induction p as [A a|A e|A x k IH|A x v k IH|A c k IH|A q IHq h IHh k IH];
    intros s Hp Hy; simpl in *.
  - done.
  - done.
  - destruct (ns s !! x); [by apply IH | done].
  - destruct Hp as [Hx Hk]. rewrite IH by done. simpl.
    apply lookup_insert_ne. intros ->. done.
  - destruct Hp as [Hc Hk].
    destruct (w (trace s) c); [by rewrite IH | done].
  - done.
Qed.

Lemma binds_bind {A B : Type} x done (p : prog A) (f : A -> prog B) :
  obeys (fun _ => True) (fun _ => False) p ->
  (forall a, binds x done (f a)) -> binds x done (bind p f).
Proof.
  revert B f.
  induction p as [A a|A e|A y k IH|A y v k IH|A c k IH|A q IHq h IHh k IH];
    intros B f Hp Hf; simpl in *.
  - apply Hf.
  - done.
  - intros v. by apply IH.
  - by destruct Hp.
  - destruct Hp as [_ Hk]. intros v. by apply IH.
  - done.
Qed.

(** A program that returns has assigned the names it binds. *)
Lemma binds_sound {A : Type} x done (p : prog A) (s : kernel) a :
  binds x done p -> (done = true -> is_Some (ns s !! x)) ->
  (run w p s).1 = Ok a -> is_Some (ns (run w p s).2 !! x).
Proof.
  revert s done a.
  induction p as [A a'|A e|A y k IH|A y v k IH|A c k IH|A q IHq h IHh k IH];
    intros s done a Hp Hd; simpl in *.
  - intros _. by apply Hd.
  - done.
  - destruct (ns s !! y); [by eapply IH | done].
  - eapply IH; [exact Hp|]. simpl. intros Hor.
    destruct (String.eqb_spec y x) as [->|Hne].
    + rewrite lookup_insert_eq. by eexists.
    + rewrite lookup_insert_ne by done. apply Hd.
      by rewrite orb_false_r in Hor.
  - destruct (w (trace s) c); [by eapply IH | done].
  - done.
Qed.

End Static.

Section CellFacts.

Ltac prim :=
  lazymatch goal with
  | |- obeys _ _ (load _) => apply obeys_load
  | |- obeys _ _ (extern _) => apply obeys_extern
  | |- obeys _ _ (lift _) => apply obeys_lift
  | |- obeys _ _ (as_services _) => apply obeys_as_services
  | |- obeys _ _ (as_service _) => apply obeys_as_service
  | |- obeys _ _ (as_images _) => apply obeys_as_images
  | |- obeys _ _ (as_hdus _) => apply obeys_as_hdus
  | |- obeys _ _ (as_coord _) => apply obeys_as_coord
  | |- obeys _ _ (as_str _) => apply obeys_as_str
  | |- obeys _ _ (as_table _) => apply obeys_as_table
  end.

Ltac walk :=
  repeat lazymatch goal with
  | |- obeys _ _ (bind _ _) => apply obeys_bind; [prim | intros ?]
  | |- obeys _ _ (Store _ _ _) => apply obeys_store
  | |- obeys _ _ (Ret _) => exact I
  | |- obeys _ _ _ => prim
  end.

Ltac open_body :=
  cbn [body]; lazymatch goal with |- obeys _ _ ?p => unfold p end.

Lemma cell_writes (c : cell) :
  obeys as_written (fun x => In x (assigned c)) (body c).
Proof.
  destruct c; open_body; walk;
    first [ exact I | simpl; tauto
          | unfold as_written, formats_passed, registry_filters; simpl; tauto ].
Qed.

Lemma jhu_formats :
  obeys (fun c => forall svc pos size fmt, c = Search svc pos size fmt -> fmt = Some "")
        (fun _ => True) Cells.jhu.
Proof.
  unfold Cells.jhu; walk; first [ exact I | intros; congruence ].
Qed.

Lemma cell_handler_free (c : cell) : handler_free (body c).
Proof. eapply obeys_handler_free, cell_writes. Qed.

Ltac trail :=
  repeat lazymatch goal with
  | |- binds _ _ (bind _ _) => apply binds_bind; [prim; exact I | intros ?]
  | |- binds _ _ (Store _ _ _) => cbn [binds]
  | |- binds _ _ (extern _) => intros ?; cbn [binds]
  | |- binds _ _ (Ret _) => cbn [binds]
  end.

Lemma cell_binds (c : cell) (x : string) :
  In x (assigned c) -> binds x false (body c).
Proof.
  destruct c; cbn [assigned In]; intros H;
    repeat (destruct H as [<-|H]); try destruct H;
    cbn [body];
    lazymatch goal with |- binds _ _ ?p => unfold p end;
    trail; reflexivity.
Qed.

End CellFacts.

(** ** The service selection *)

Section Selection.

Lemma dr7_at_true host s : dr7_at host s = true <-> is_dr7_at host s.
Proof.
  unfold dr7_at, is_dr7_at, mentions.
  rewrite andb_true_iff, !str_in_spec. done.
Qed.

Lemma dr7_at_false host s : dr7_at host s = false <-> ~ is_dr7_at host s.
Proof.
  rewrite <- dr7_at_true. destruct (dr7_at host s); split; congruence.
Qed.

Lemma select_dr7_spec host (services : list Service) :
  match select_dr7 host services with
  | Ok s =>
      exists pre post, services = pre ++ s :: post /\
        Forall (fun s' => ~ is_dr7_at host s') pre /\ is_dr7_at host s
  | Raised e =>
      e = IndexError /\ Forall (fun s' => ~ is_dr7_at host s') services
  end.
Proof.
  unfold select_dr7, Py.comprehension, Py.index.
  induction services as [|s0 services IH]; cbn [List.filter].
  - split; [done | constructor].
  - destruct (dr7_at host s0) eqn:Hs0.
    + exists [], services. split; [done|]. split; [constructor|].
      by apply dr7_at_true.
    + apply dr7_at_false in Hs0.
      destruct (List.filter (dr7_at host) services) as [|s l]; simpl in *.
      * destruct IH as [_ Hall]. split; [done | by constructor].
      * destruct IH as (pre & post & -> & Hpre & Hs).
        exists (s0 :: pre), post. split; [done|]. split; [by constructor | done].
Qed.

End Selection.

(** C8.  The selection
    [[s for s in services if 'SDSSDR7' in s.short_name and 'heasarc' in s.ivoid][0]]
    returns the first service of the list, in the list's order, whose
    [short_name] contains ['SDSSDR7'] and whose [ivoid] contains ['heasarc']:
    when it returns [s], no service before [s] matches and [s] matches; when
    it raises, the exception is [IndexError] and no service of the list
    matches. *)
Theorem heasarc_selection_first_match (services : list Service) :
  match heasarc_dr7_service services with
  | Ok s =>
      exists pre post, services = pre ++ s :: post /\
        Forall (fun s' => ~ (mentions "SDSSDR7" (short_name s') /\
                             mentions "heasarc" (ivoid s'))) pre /\
        mentions "SDSSDR7" (short_name s) /\ mentions "heasarc" (ivoid s)
  | Raised e =>
      e = IndexError /\
      Forall (fun s' => ~ (mentions "SDSSDR7" (short_name s') /\
                           mentions "heasarc" (ivoid s'))) services
  end.
Proof. apply (select_dr7_spec "heasarc"). Qed.

(** ** The row filter *)

(** C10.  On a table whose rows have one cell per column and which has a
    [short_name] column (at position [j]), the row filter
    [services.to_table()[np.where(np.isin(services.to_table()['short_name'], b'SDSSDR7'))]]
    returns the table of exactly the rows whose [short_name] cell is the
    bytes value [b'SDSSDR7'], each as often as it occurs and in the order
    of the table, with the columns unchanged.  The test is equality with a
    bytes value: a row whose [short_name] is a [str] is never selected,
    whatever its text. *)
Theorem isin_rows_exact_equality (tbl : Table) (j : nat) :
  index_of "short_name" (colnames tbl) = Some j -> well_formed tbl ->
  exists picked,
    sdssdr7_rows tbl = Ok picked /\
    colnames picked = colnames tbl /\
    rows picked = List.filter (is_sdssdr7 j) (rows tbl) /\
    sublist (rows picked) (rows tbl) /\
    (forall row, In row (rows picked) <->
                 In row (rows tbl) /\ nth_error row j = Some (CBytes "SDSSDR7")) /\
    (forall row text, In row (rows picked) -> nth_error row j <> Some (CStr text)).
Proof.
  intros Hj Hwf. eexists. split; [by apply sdssdr7_rows_filter|]. simpl.
  split; [done|]. split; [done|]. split; [apply filter_sublist|].
  assert (Hmem : forall row, In row (List.filter (is_sdssdr7 j) (rows tbl)) <->
                   In row (rows tbl) /\ nth_error row j = Some (CBytes "SDSSDR7")).
  { intros row. by rewrite filter_In, is_sdssdr7_bytes. }
  split; [exact Hmem|].
  intros row text Hin. apply Hmem in Hin as [_ Hrow]. congruence.
Qed.

(** A registry table with bytes columns: the two DR7 rows are kept. *)
Lemma isin_rows_exact_equality_witness :
  let tbl := Archive.services_table_bytes
               [Archive.sdss_siap; Archive.sdss_heasarc; Archive.sdss_jhu] in
  exists picked,
    sdssdr7_rows tbl = Ok picked /\
    rows picked = rows (Archive.services_table_bytes [Archive.sdss_heasarc; Archive.sdss_jhu]).
Proof.
  intros tbl.
  destruct (isin_rows_exact_equality tbl 2) as (picked & H1 & _ & H2 & _).
  - reflexivity.
  - unfold well_formed. simpl. repeat constructor.
  - exists picked. split; [exact H1|]. rewrite H2. reflexivity.
Defined.

(** ** Failures *)

(** C3.  No cell handles, retries or recovers from a failure: when an
    external call made by a cell raises, the cell ends there (no further
    call follows, so nothing is retried) and the cell's outcome is that
    very exception. *)
Theorem exceptions_propagate (w : world) (c : cell) (s : kernel)
    (pre post : list event) (ev : event) (e : exn) :
  trace (run_cell w c s).2 = trace s ++ pre ++ ev :: post ->
  ev_result ev = Raised e ->
  (run_cell w c s).1 = Raised e /\ post = [].
Proof.
  unfold run_cell. rewrite trace_run. intros Htr Hev.
  apply app_inv_head in Htr.
  destruct (emitted_raise_last w (body c) s pre ev post e
              (cell_handler_free c) Htr Hev). done.
Qed.

(** In the flaky world the first [fits.open] of the FITS cell times out,
    after the query of the same cell succeeded. *)
Lemma exceptions_propagate_witness :
  let s := session Archive.flaky [Imports; UvotServices; ImTable] fresh in
  (run_cell Archive.flaky FitsOpenCell s).1 = Raised (LibraryError "timed out")
  /\ skipn 2 (emitted Archive.flaky Cells.fits_open s) = [].
Proof.
  intros s.
  apply (exceptions_propagate Archive.flaky FitsOpenCell s
           (firstn 1 (emitted Archive.flaky Cells.fits_open s))
           (skipn 2 (emitted Archive.flaky Cells.fits_open s))
           {| ev_call := FitsOpen "https://archive.example/SwiftUVOTimage/fits/u";
              ev_result := Raised (LibraryError "timed out") |}).
  - vm_compute. reflexivity.
  - reflexivity.
Defined.

(** The same cell inside a [try] that runs it again would not propagate
    the time-out: the second attempt follows the failed call and the body
    returns. *)
Lemma retry_would_recover :
  let s := session Archive.flaky [Imports; UvotServices; ImTable] fresh in
  (run Archive.flaky (with_retry Cells.fits_open) s).1 = Ok VNone /\
  map ev_result (firstn 2 (emitted Archive.flaky (with_retry Cells.fits_open) s))
  = [Ok (VImages (Archive.images_of Archive.swift_uvot "image/fits"));
     Raised (LibraryError "timed out")] /\
  length (emitted Archive.flaky (with_retry Cells.fits_open) s) = 5.
Proof. vm_compute. done. Qed.

(** ** Subscripts *)

Section Indexing.
Context (w : world).

Ltac runs :=
  cbn [run bind load extern lift as_services as_service as_images as_hdus
       as_coord as_str as_table bind_name log ns trace emitted outcome exec
       fst snd Py.index nth_error].

Ltac known :=
  repeat first
    [ progress runs
    | rewrite lookup_insert_eq
    | rewrite lookup_insert_ne by done
    | match goal with H : ?x = _ |- context [?x] => rewrite H end ].







End Indexing.



(** ** Names a cell depends on *)

Section Needs.
Context (w : world).

Lemma reads_first_here {A B : Type} x (k : value -> prog A) (f : A -> prog B) :
  reads_first x (bind (Load x k) f).
Proof. by left. Qed.

Lemma reads_first_later {A B : Type} x (p : prog A) (f : A -> prog B) :
  obeys (fun _ => True) (fun _ => False) p ->
  (forall a, reads_first x (f a)) -> reads_first x (bind p f).
Proof.
  revert B f.
  induction p as [A a|A e|A y k IH|A y v k IH|A c k IH|A q IHq h IHh k IH];
    intros B f Hp Hf; simpl in *.
  - apply Hf.
  - done.
  - right. intros v. by apply IH.
  - by destruct Hp.
  - destruct Hp as [_ Hk]. intros v. by apply IH.
  - done.
Qed.

Lemma reads_first_sound {A : Type} x (p : prog A) (s : kernel) a :
  reads_first x p -> (run w p s).1 = Ok a -> is_Some (ns s !! x).
Proof.
  revert s a.
  induction p as [A a'|A e|A y k IH|A y v k IH|A c k IH|A q IHq h IHh k IH];
    intros s a Hp; simpl in *.
  - done.
  - done.
  - destruct (ns s !! y) as [v|] eqn:Hy; [|done].
    destruct Hp as [->|Hp]; [by rewrite Hy | by eapply IH].
  - destruct Hp as [Hne Hp]. intros Hok.
    specialize (IH _ _ Hp Hok). simpl in IH. by rewrite lookup_insert_ne in IH.
  - destruct (w (trace s) c); [by eapply IH | done].
  - done.
Qed.

Ltac pure_step :=
  lazymatch goal with
  | |- obeys _ _ (load _) => apply obeys_load
  | |- obeys _ _ (extern _) => apply obeys_extern
  | |- obeys _ _ (lift _) => apply obeys_lift
  | |- obeys _ _ (as_services _) => apply obeys_as_services
  | |- obeys _ _ (as_service _) => apply obeys_as_service
  | |- obeys _ _ (as_images _) => apply obeys_as_images
  | |- obeys _ _ (as_hdus _) => apply obeys_as_hdus
  | |- obeys _ _ (as_coord _) => apply obeys_as_coord
  | |- obeys _ _ (as_str _) => apply obeys_as_str
  | |- obeys _ _ (as_table _) => apply obeys_as_table
  end; exact I.

Ltac seek :=
  repeat lazymatch goal with
  | |- reads_first ?x (bind (load ?x) _) => apply reads_first_here
  | |- reads_first _ (bind _ _) => apply reads_first_later; [pure_step | intros ?]
  | |- reads_first _ (Store _ _ _) => split; [done|]
  end.

Lemma cell_reads_first (c : cell) (x : string) :
  In x (needs c) -> reads_first x (body c).
Proof.
  destruct c; cbn [needs In]; intros H;
    repeat (destruct H as [<-|H]); try destruct H;
    cbn [body];
    lazymatch goal with |- reads_first _ ?p => unfold p end;
    seek.
Qed.

Lemma one_of_In x names : one_of x names = true <-> In x names.
Proof.
  unfold one_of. rewrite existsb_exists. split.
  - intros (y & Hy & Heq). apply String.eqb_eq in Heq. by subst.
  - intros H. exists x. split; [done | apply String.eqb_refl].
Qed.

Lemma closed_sound bound cs pre c post x :
  closed bound cs = true -> cs = pre ++ c :: post -> In x (needs c) ->
  In x bound \/ exists c', In c' pre /\ In x (assigned c').
Proof.
  revert bound pre. induction cs as [|c0 cs IH]; intros bound pre Hcl Hcs Hx.
  - by destruct pre.
  - simpl in Hcl. apply andb_true_iff in Hcl as [Hhere Hrest].
    destruct pre as [|c1 pre]; simpl in Hcs; injection Hcs as -> ->.
    + left. rewrite forallb_forall in Hhere. apply one_of_In. by apply Hhere.
    + destruct (IH _ _ Hrest eq_refl Hx) as [Hb|(c' & Hc' & Hin)].
      * apply in_app_or in Hb as [Hb|Hb]; [by left|].
        right. exists c1. split; [by left | done].
      * right. exists c'. split; [by right | done].
Qed.

End Needs.

(** X1.  A cell returns only if every name it reads without assigning it
    first was bound when the cell started: run before the cells that bind
    its inputs, a cell cannot complete. *)
Theorem cell_needs_bound (w : world) (c : cell) (s : kernel) (a : value) (x : string) :
  (run_cell w c s).1 = Ok a -> In x (needs c) -> is_Some (ns s !! x).
Proof.
  intros Hok Hx. eapply reads_first_sound; [by apply cell_reads_first | exact Hok].
Qed.

Lemma cell_needs_bound_witness :
  let s := session Archive.answer [Imports; UvotServices; ImTable] fresh in
  is_Some (ns s !! "im_table").
Proof.
  intros s.
  apply (cell_needs_bound Archive.answer Url s VNone "im_table").
  - vm_compute. reflexivity.
  - simpl. tauto.
Defined.

(** X3.  CS_Image_Access is ordered for a run from top to bottom: every
    name a cell needs is assigned by a cell above it. *)
Theorem document_order_closed (pre post : list cell) (c : cell) (x : string) :
  cs_image_access = pre ++ c :: post -> In x (needs c) ->
  exists c', In c' pre /\ In x (assigned c').
Proof.
  intros Hcs Hx.
  destruct (closed_sound [] cs_image_access pre c post x) as [[]|H]; try done.
Qed.

Lemma document_order_closed_witness :
  exists c', In c' [Imports; UvServices; UvotServices; ImTable; Url; DisplayJpeg]
             /\ In "coords" (assigned c').
Proof.
  apply (document_order_closed
           [Imports; UvServices; UvotServices; ImTable; Url; DisplayJpeg]
           [ImshowCell; AplpyFigure; Services; Heasarc; HeasarcDownload; Jhu; JhuDownload]
           FitsOpenCell "coords").
  - reflexivity.
  - simpl. tauto.
Defined.

(** ** What a cell leaves behind *)




(** ** The arguments of the image queries *)

Section Arguments.
Context (w : world).

Lemma session_as_written (cs : list cell) (s : kernel) :
  Forall (fun ev => as_written (ev_call ev)) (trace s) ->
  Forall (fun ev => as_written (ev_call ev)) (trace (session w cs s)).
Proof.
  revert s. induction cs as [|c cs IH]; intros s Hs; simpl; [done|].
  apply IH. unfold run_cell. rewrite trace_run. apply Forall_app. split; [done|].
  eapply obeys_emitted, cell_writes.
Qed.

End Arguments.

(** X14.  Every image query made in a session passes all three arguments
    of [search]: the position, the size [0.2] and the format, which is
    ['image/jpeg'], ['image/fits'] or the empty string; no query leaves
    the format out.  The query of the SkyServer cell passes the empty
    string. *)
Theorem queries_pass_format (w : world) :
  (forall cs ev svc pos size fmt,
     In ev (trace (session w cs fresh)) ->
     ev_call ev = Search svc pos size fmt ->
     size = 0.2%Q /\
     (fmt = Some "image/jpeg" \/ fmt = Some "image/fits" \/ fmt = Some "")) /\
  (forall s ev svc pos size fmt,
     In ev (emitted w Cells.jhu s) ->
     ev_call ev = Search svc pos size fmt ->
     fmt = Some "").
Proof.
  split.
  - intros cs ev svc pos size fmt Hin Hcall.
    pose proof (session_as_written w cs fresh (List.Forall_nil _)) as Hall.
    rewrite List.Forall_forall in Hall. specialize (Hall ev Hin).
    rewrite Hcall in Hall. destruct Hall as [Hsize Hfmt]. split; [done|].
    unfold formats_passed in Hfmt. simpl in Hfmt. intuition congruence.
  - intros s ev svc pos size fmt Hin Hcall.
    pose proof (obeys_emitted w _ _ Cells.jhu s jhu_formats) as Hall.
    rewrite List.Forall_forall in Hall. by eapply Hall.
Qed.

Lemma queries_pass_format_witness :
  0.2%Q = 0.2%Q /\
  (Some "image/fits" = Some "image/jpeg" \/ Some "image/fits" = Some "image/fits"
   \/ Some "image/fits" = Some "").
Proof.
  destruct (queries_pass_format Archive.answer) as [H _].
  apply (H cs_image_access
           {| ev_call := Search Archive.sdss_heasarc Archive.m51 0.2%Q (Some "image/fits");
              ev_result := Ok (VImages (Archive.images_of Archive.sdss_heasarc "image/fits")) |}
           Archive.sdss_heasarc Archive.m51 0.2%Q (Some "image/fits")).
  - vm_compute. tauto.
  - reflexivity.
Defined.

(** ** The imported names *)

Section Modules.
Context (w : world).

Lemma workflow_assigns_no_import (c : cell) (x : string) :
  is_import_cell c = false -> In x (assigned Imports) -> ~ In x (assigned c).
Proof.
  destruct c; try discriminate; intros _; cbn [assigned In];
    intros Hx Hc;
    repeat (destruct Hc as [<-|Hc]; [intuition discriminate|]); exact Hc.
Qed.

Lemma session_keeps_imports (cs : list cell) (s : kernel) (x : string) :
  Forall (fun c => is_import_cell c = false) cs -> In x (assigned Imports) ->
  ns (session w cs s) !! x = ns s !! x.
Proof.
  intros Hcs Hx. revert s. induction Hcs as [|c cs Hc _ IH]; intros s; simpl; [done|].
  rewrite IH. unfold run_cell.
  eapply obeys_frame; [apply cell_writes|]. by apply workflow_assigns_no_import.
Qed.

Lemma run_call_ok {A : Type} c (k : value -> prog A) s v :
  w (trace s) c = Ok v -> run w (Call c k) s = run w (k v) (log c (Ok v) s).
Proof. intros H. simpl. by rewrite H. Qed.

Lemma run_call_raised {A : Type} c (k : value -> prog A) s e :
  w (trace s) c = Raised e -> run w (Call c k) s = (Raised e, log c (Raised e) s).
Proof. intros H. simpl. by rewrite H. Qed.

Lemma run_store {A : Type} x v (k : prog A) s :
  run w (Store x v k) s = run w k (bind_name x v s).
Proof. reflexivity. Qed.

Ltac answer Hok :=
  lazymatch goal with
  | |- context [run w (Call ?c ?k) ?s] =>
      let H := fresh in
      let v := fresh "v" in
      destruct (Hok (trace s) c) as [v H]; [discriminate|];
      rewrite (run_call_ok c k s v H); cbv beta; try rewrite run_store
  end.

Lemma aplpy_import_failure (s : kernel) (e : exn) :
  (forall tr c, c <> Import "aplpy" -> exists v, w tr c = Ok v) ->
  (forall tr, w tr (Import "aplpy") = Raised e) ->
  (run_cell w Imports s).1 = Raised e /\
  (forall x, In x ["np"; "matplotlib"; "plt"; "vo"; "fits"; "coord"; "download_file"] ->
     is_Some (ns (run_cell w Imports s).2 !! x)) /\
  (forall x, In x ["aplpy"; "ipImage"; "display"; "warnings"] ->
     ns (run_cell w Imports s).2 !! x = ns s !! x).
Proof.
  intros Hok Hfail. unfold run_cell. cbn [body]. unfold Cells.imports.
  cbn [bind extern load]. do 8 answer Hok.
  rewrite run_call_raised with (e := e) by apply Hfail.
  cbn [fst snd ns log bind_name]. split; [done|]. split.
  - intros y Hy. cbn [In] in Hy.
    repeat (destruct Hy as [<-|Hy];
            [repeat (rewrite lookup_insert_ne by done);
             rewrite lookup_insert_eq; by eexists|]).
    done.
  - intros y Hy. cbn [In] in Hy.
    repeat (destruct Hy as [<-|Hy];
            [by repeat (rewrite lookup_insert_ne by done)|]).
    done.
Qed.

End Modules.

(** X4.  When the import cell returns, the eleven names it assigns are
    bound, and they keep their values through whatever workflow cells run
    afterwards: no cell other than the import cells assigns a name that
    shadows an import (the position is [coords], not [coord]).  An import
    can fail: when [import aplpy] raises and the lines above it succeed,
    the cell ends with that exception, the seven names above are bound and
    [aplpy], [ipImage], [display] and [warnings] are as they were. *)
Theorem imports_stay_bound (w : world) (s : kernel) :
  (forall a cs x,
     (run_cell w Imports s).1 = Ok a ->
     Forall (fun c => is_import_cell c = false) cs ->
     In x (assigned Imports) ->
     is_Some (ns (run_cell w Imports s).2 !! x) /\
     ns (session w (Imports :: cs) s) !! x = ns (run_cell w Imports s).2 !! x) /\
  (forall e,
     (forall tr c, c <> Import "aplpy" -> exists v, w tr c = Ok v) ->
     (forall tr, w tr (Import "aplpy") = Raised e) ->
     (run_cell w Imports s).1 = Raised e /\
     (forall x, In x ["np"; "matplotlib"; "plt"; "vo"; "fits"; "coord"; "download_file"] ->
        is_Some (ns (run_cell w Imports s).2 !! x)) /\
     (forall x, In x ["aplpy"; "ipImage"; "display"; "warnings"] ->
        ns (run_cell w Imports s).2 !! x = ns s !! x)).
Proof.
  split.
  - intros a cs x Hok Hcs Hx. split.
    + unfold run_cell in *.
      eapply binds_sound; [by apply cell_binds | done | exact Hok].
    + simpl. by apply session_keeps_imports.
  - intros e. apply aplpy_import_failure.
Qed.

Lemma imports_stay_bound_witness :
  is_Some (ns (run_cell Archive.answer Imports fresh).2 !! "coord") /\
  ns (session Archive.answer cs_image_access fresh) !! "coord"
  = ns (run_cell Archive.answer Imports fresh).2 !! "coord".
Proof.
  destruct (imports_stay_bound Archive.answer fresh) as [H _].
  apply (H VNone
           [UvServices; UvotServices; ImTable; Url; DisplayJpeg; FitsOpenCell;
            ImshowCell; AplpyFigure; Services; Heasarc; HeasarcDownload; Jhu;
            JhuDownload] "coord").
  - vm_compute. reflexivity.
  - repeat constructor.
  - simpl. tauto.
Defined.

(** ** More on the selection *)

(** X5.  The SkyServer selection
    [[s for s in services if 'SDSSDR7' in s.short_name and 'jhu' in s.ivoid][0]]
    returns the first service of the list whose [short_name] contains
    ['SDSSDR7'] and whose [ivoid] contains ['jhu'], and raises [IndexError]
    exactly when the list has no such service. *)
Theorem jhu_selection_first_match (services : list Service) :
  match jhu_dr7_service services with
  | Ok s =>
      exists pre post, services = pre ++ s :: post /\
        Forall (fun s' => ~ is_dr7_at "jhu" s') pre /\ is_dr7_at "jhu" s
  | Raised e =>
      e = IndexError /\ Forall (fun s' => ~ is_dr7_at "jhu" s') services
  end.
Proof. apply (select_dr7_spec "jhu"). Qed.

(** ** Whole cells *)

Section WholeCells.
Context (w : world).

Lemma index_head {A : Type} (x : A) (xs : list A) : Py.index (x :: xs) 0 = Ok x.
Proof. reflexivity. Qed.

Lemma index_nil {A : Type} (i : nat) : Py.index (@nil A) i = Raised IndexError.
Proof. by destruct i. Qed.

Ltac runs :=
  cbn [run bind load extern lift as_services as_service as_images as_hdus
       as_coord as_str as_table bind_name log ns trace emitted outcome exec
       fst snd].

Ltac known :=
  repeat first
    [ progress runs
    | rewrite lookup_insert_eq
    | rewrite lookup_insert_ne by done
    | rewrite index_head
    | rewrite index_nil
    | match goal with H : ?x = _ |- context [?x] => rewrite H end ].



(** The registry cell of section 4. *)
Lemma services_cell_run s m n r tbl tbl' :
  ns s !! "vo" = Some m -> ns s !! "np" = Some n ->
  let search := {| ev_call := RegSearch (Some "image") (Some "optical") (Some ["sloan"]);
                   ev_result := Ok r |} in
  let outer := {| ev_call := ToTable r; ev_result := Ok (VTable tbl) |} in
  let inner := {| ev_call := ToTable r; ev_result := Ok (VTable tbl') |} in
  w (trace s) (ev_call search) = ev_result search ->
  w (trace s ++ [search]) (ev_call outer) = ev_result outer ->
  w ((trace s ++ [search]) ++ [outer]) (ev_call inner) = ev_result inner ->
  run w Cells.services s =
  (match rows_where_isin tbl tbl' with
   | Ok picked =>
       match select_columns ["ivoid"; "short_name"] picked with
       | Ok shown => Ok (VTable shown)
       | Raised e => Raised e
       end
   | Raised e => Raised e
   end,
   {| ns := <["services" := r]> (ns s);
      trace := ((trace s ++ [search]) ++ [outer]) ++ [inner] |}).
Proof.
  intros H1 H2 search outer inner H3 H4 H5.
  unfold search, outer, inner in *. simpl in H3, H4, H5.
  unfold Cells.services. known. unfold rows_where_isin.
  destruct (isin_positions tbl') as [indices|]; [|done]. known.
  destruct (table_take tbl indices) as [picked|]; [|done]. known.
  by destruct (select_columns ["ivoid"; "short_name"] picked).
Qed.

Lemma fits_open_failure s svc rest pos m r t e :
  ns s !! "uvot_services" = Some (VServices (svc :: rest)) ->
  ns s !! "coords" = Some (VCoord pos) ->
  ns s !! "fits" = Some m ->
  let query := {| ev_call := Search svc pos 0.2%Q (Some "image/fits");
                  ev_result := Ok (VImages (r :: t)) |} in
  w (trace s) (ev_call query) = ev_result query ->
  w (trace s ++ [query]) (FitsOpen (getdataurl r)) = Raised e ->
  run w Cells.fits_open s =
  (Raised e,
   {| ns := <["im_table" := VImages (r :: t)]> (ns s);
      trace := (trace s ++ [query]) ++
        [{| ev_call := FitsOpen (getdataurl r); ev_result := Raised e |}] |}).
Proof.
  intros H1 H2 H3 query H4 H5. unfold query in *. simpl in H4.
  unfold Cells.fits_open. by known.
Qed.

Lemma imshow_empty s m :
  ns s !! "plt" = Some m -> ns s !! "hdu_list" = Some (VHdus []) ->
  run w Cells.imshow s = (Raised IndexError, s).
Proof. intros H1 H2. unfold Cells.imshow. by known. Qed.

Lemma download_run (c : cell) (table : string) (i : nat) s m1 m2 m3 t r path h hs :
  download_source c = Some (table, i) ->
  ns s !! "download_file" = Some m1 -> ns s !! "fits" = Some m2 ->
  ns s !! "plt" = Some m3 ->
  ns s !! table = Some (VImages t) ->
  Py.index t i = Ok r ->
  let dl := {| ev_call := DownloadFile (getdataurl r) true; ev_result := Ok (VStr path) |} in
  let op := {| ev_call := FitsOpen path; ev_result := Ok (VHdus (h :: hs)) |} in
  w (trace s) (ev_call dl) = ev_result dl ->
  w (trace s ++ [dl]) (ev_call op) = ev_result op ->
  let shown := w ((trace s ++ [dl]) ++ [op]) (Imshow (data h) (Some 1010%Q) (Some 1200%Q)) in
  run_cell w c s =
  (shown,
   {| ns := <["hdu_list" := VHdus (h :: hs)]> (<["file_name" := VStr path]> (ns s));
      trace := ((trace s ++ [dl]) ++ [op]) ++
        [{| ev_call := Imshow (data h) (Some 1010%Q) (Some 1200%Q); ev_result := shown |}] |}).
Proof.
  intros Hc H1 H2 H3 H4 H5 dl op H6 H7 shown.
  unfold dl, op in *. simpl in H6, H7. unfold run_cell.
  destruct c; try discriminate Hc; injection Hc as <- <-; cbn [body].
  - unfold Cells.heasarc_download. known. fold shown. by destruct shown.
  - unfold Cells.jhu_download. known. fold shown. by destruct shown.
Qed.

Lemma download_empty_hdus (c : cell) (table : string) (i : nat) s m1 m2 m3 t r path :
  download_source c = Some (table, i) ->
  ns s !! "download_file" = Some m1 -> ns s !! "fits" = Some m2 ->
  ns s !! "plt" = Some m3 ->
  ns s !! table = Some (VImages t) ->
  Py.index t i = Ok r ->
  let dl := {| ev_call := DownloadFile (getdataurl r) true; ev_result := Ok (VStr path) |} in
  let op := {| ev_call := FitsOpen path; ev_result := Ok (VHdus []) |} in
  w (trace s) (ev_call dl) = ev_result dl ->
  w (trace s ++ [dl]) (ev_call op) = ev_result op ->
  (run_cell w c s).1 = Raised IndexError /\ emitted w (body c) s = [dl; op].
Proof.
  intros Hc H1 H2 H3 H4 H5 dl op H6 H7.
  unfold dl, op in *. simpl in H6, H7. unfold run_cell.
  destruct c; try discriminate Hc; injection Hc as <- <-; cbn [body].
  - unfold Cells.heasarc_download. by known.
  - unfold Cells.jhu_download. by known.
Qed.

End WholeCells.

(** X7.  The registry cell of section 4.  When the registry search returns
    [r] and both [to_table()] calls return the same well-formed table with
    the columns [ivoid] and [short_name], the cell binds [services] to [r]
    as returned, makes these three calls and no other, and displays the
    [ivoid] and [short_name] cells of exactly the rows whose [short_name]
    is the bytes value [b'SDSSDR7'], in the order of the table.  When the
    [short_name] column holds [str] values the displayed table has the
    two columns and no row. *)
Theorem services_cell_output (w : world) (s : kernel) (m n r : value)
    (tbl : Table) (i j : nat) :
  ns s !! "vo" = Some m -> ns s !! "np" = Some n ->
  let search := {| ev_call := RegSearch (Some "image") (Some "optical") (Some ["sloan"]);
                   ev_result := Ok r |} in
  let tabulate := {| ev_call := ToTable r; ev_result := Ok (VTable tbl) |} in
  w (trace s) (ev_call search) = ev_result search ->
  w (trace s ++ [search]) (ev_call tabulate) = ev_result tabulate ->
  w ((trace s ++ [search]) ++ [tabulate]) (ev_call tabulate) = ev_result tabulate ->
  well_formed tbl ->
  index_of "ivoid" (colnames tbl) = Some i ->
  index_of "short_name" (colnames tbl) = Some j ->
  exists shown,
    (run_cell w Services s).1 = Ok (VTable shown) /\
    colnames shown = ["ivoid"; "short_name"] /\
    Forall2 (fun row srow =>
               exists c, nth_error row i = Some c /\ srow = [c; CBytes "SDSSDR7"])
            (List.filter (is_sdssdr7 j) (rows tbl)) (rows shown) /\
    (Forall (fun row => exists text, nth_error row j = Some (CStr text)) (rows tbl) ->
       rows shown = []) /\
    ns (run_cell w Services s).2 = <["services" := r]> (ns s) /\
    trace (run_cell w Services s).2 = trace s ++ [search; tabulate; tabulate].
Proof.
  intros H1 H2 search tabulate H3 H4 H5 Hwf Hi Hj. unfold run_cell. cbn [body].
  rewrite (services_cell_run w s m n r tbl tbl H1 H2 H3 H4 H5).
  change (rows_where_isin tbl tbl) with (sdssdr7_rows tbl).
  rewrite (sdssdr7_rows_filter tbl j Hj Hwf).
  set (picked := {| colnames := colnames tbl;
                    rows := List.filter (is_sdssdr7 j) (rows tbl) |}).
  assert (Hpwf : well_formed picked).
  { unfold well_formed in *. simpl. rewrite List.Forall_forall in *.
    intros row Hrow. apply filter_In in Hrow as [Hrow _]. by apply Hwf. }
  destruct (select_columns_total ["ivoid"; "short_name"] picked Hpwf) as [shown Hshown].
  { simpl. intros x [<-|[<-|[]]]; apply index_of_In; eauto. }
  rewrite Hshown. exists shown.
  destruct (select_columns_Ok _ _ _ Hshown) as (Hcols & _ & _ & Hrows).
  simpl in Hrows.
  assert (Hkept : Forall (fun row => nth_error row j = Some (CBytes "SDSSDR7"))
                    (List.filter (is_sdssdr7 j) (rows tbl))).
  { rewrite List.Forall_forall. intros row Hrow.
    apply filter_In in Hrow as [_ Hrow]. by apply is_sdssdr7_bytes. }
  split; [done|]. split; [done|]. split; [|split; [|split]].
  - eapply Forall2_impl; [exact (Forall2_and_left _ _ _ _ Hrows Hkept)|].
    simpl. intros row srow [[Hlen Hcells] Hname].
    destruct (Hcells 0 "ivoid" eq_refl) as (i' & Hi' & H0 & _).
    destruct (Hcells 1 "short_name" eq_refl) as (j' & Hj' & H1' & _).
    simpl in Hi', Hj'. simplify_eq.
    destruct srow as [|c [|d [|? ?]]]; simpl in Hlen; try discriminate.
    simpl in H0, H1'. exists c. split; [done|]. congruence.
  - intros Hstr. destruct (rows shown) as [|srow rest] eqn:Hs; [done|].
    inversion Hrows as [|row ? ? ? _ _ Hfil]; subst.
    assert (Hin : In row (List.filter (is_sdssdr7 j) (rows tbl)))
      by (rewrite <- Hfil; by left).
    apply filter_In in Hin as [Hin Hrow]. apply is_sdssdr7_bytes in Hrow.
    rewrite List.Forall_forall in Hstr. destruct (Hstr row Hin) as [text Htext].
    congruence.
  - done.
  - simpl. by rewrite <- !app_assoc.
Qed.

(** Against the scripted archive, whose registry tables have [str]
    columns, the cell displays no row. *)
Lemma services_cell_output_witness :
  let s := session Archive.answer [Imports] fresh in
  exists shown,
    (run_cell Archive.answer Services s).1 = Ok (VTable shown) /\
    colnames shown = ["ivoid"; "short_name"] /\ rows shown = [].
Proof.
  intros s.
  destruct (services_cell_output Archive.answer s (VModule "pyvo") (VModule "numpy")
              (VServices [Archive.sdss_siap; Archive.sdss_heasarc; Archive.sdss_jhu])
              (Archive.services_table
                 [Archive.sdss_siap; Archive.sdss_heasarc; Archive.sdss_jhu]) 0 2)
    as (shown & Hrun & Hcols & _ & Hstr & _).
  - vm_compute. reflexivity.
  - vm_compute. reflexivity.
  - reflexivity.
  - reflexivity.
  - reflexivity.
  - unfold well_formed. simpl. repeat constructor.
  - reflexivity.
  - reflexivity.
  - exists shown. split; [exact Hrun|]. split; [exact Hcols|].
    apply Hstr. simpl. repeat constructor; eexists; reflexivity.
Defined.

(** X8.  A failure half-way through the FITS cell is not rolled back: when
    the query succeeds and [fits.open] then raises, the cell ends with that
    exception, [im_table] already holds the FITS result table, and
    [hdu_list] (like every other name) is as it was. *)
Theorem fits_open_failure_keeps_query (w : world) (s : kernel) (svc : Service)
    (rest : list Service) (pos : SkyCoord) (m : value) (r : ImageRecord)
    (t : list ImageRecord) (e : exn) :
  ns s !! "uvot_services" = Some (VServices (svc :: rest)) ->
  ns s !! "coords" = Some (VCoord pos) ->
  ns s !! "fits" = Some m ->
  w (trace s) (Search svc pos 0.2%Q (Some "image/fits")) = Ok (VImages (r :: t)) ->
  w (trace s ++ [{| ev_call := Search svc pos 0.2%Q (Some "image/fits");
                    ev_result := Ok (VImages (r :: t)) |}])
    (FitsOpen (getdataurl r)) = Raised e ->
  (run_cell w FitsOpenCell s).1 = Raised e /\
  ns (run_cell w FitsOpenCell s).2 = <["im_table" := VImages (r :: t)]> (ns s) /\
  ns (run_cell w FitsOpenCell s).2 !! "hdu_list" = ns s !! "hdu_list".
Proof.
  intros H1 H2 H3 H4 H5. unfold run_cell. cbn [body].
  rewrite (fits_open_failure w s svc rest pos m r t e H1 H2 H3 H4 H5).
  repeat split; try done. simpl. by rewrite lookup_insert_ne.
Qed.

Lemma fits_open_failure_keeps_query_witness :
  let s := session Archive.flaky [Imports; UvotServices; ImTable] fresh in
  (run_cell Archive.flaky FitsOpenCell s).1 = Raised (LibraryError "timed out") /\
  ns (run_cell Archive.flaky FitsOpenCell s).2
    = <["im_table" := VImages (Archive.images_of Archive.swift_uvot "image/fits")]> (ns s) /\
  ns (run_cell Archive.flaky FitsOpenCell s).2 !! "hdu_list" = ns s !! "hdu_list".
Proof.
  intros s.
  apply (fits_open_failure_keeps_query Archive.flaky s Archive.swift_uvot []
           Archive.m51 (VModule "astropy.io.fits")
           (Archive.image "SwiftUVOTimage/fits" "u")
           [Archive.image "SwiftUVOTimage/fits" "g"]);
    vm_compute; reflexivity.
Defined.

(** X9.  [hdu_list[0]] is unguarded too: with an empty HDU list the
    [imshow] cell raises [IndexError] before [plt.imshow] and changes
    nothing, and a download cell whose [fits.open] returns an empty HDU
    list raises [IndexError] after the download and the open, without
    plotting. *)
Theorem empty_hdu_list_raises (w : world) (s : kernel) :
  (forall m, ns s !! "plt" = Some m -> ns s !! "hdu_list" = Some (VHdus []) ->
     run_cell w ImshowCell s = (Raised IndexError, s)) /\
  (forall c table i m1 m2 m3 t r path,
     download_source c = Some (table, i) ->
     ns s !! "download_file" = Some m1 -> ns s !! "fits" = Some m2 ->
     ns s !! "plt" = Some m3 ->
     ns s !! table = Some (VImages t) ->
     Py.index t i = Ok r ->
     w (trace s) (DownloadFile (getdataurl r) true) = Ok (VStr path) ->
     w (trace s ++ [{| ev_call := DownloadFile (getdataurl r) true;
                       ev_result := Ok (VStr path) |}])
       (FitsOpen path) = Ok (VHdus []) ->
     (run_cell w c s).1 = Raised IndexError /\
     emitted w (body c) s =
       [ {| ev_call := DownloadFile (getdataurl r) true; ev_result := Ok (VStr path) |};
         {| ev_call := FitsOpen path; ev_result := Ok (VHdus []) |} ]).
Proof.
  split.
  - intros m H1 H2. by apply (imshow_empty w s m).
  - intros c table i m1 m2 m3 t r path Hc H1 H2 H3 H4 H5 H6 H7.
    by apply (download_empty_hdus w c table i s m1 m2 m3 t r path).
Qed.

Lemma empty_hdu_list_raises_witness :
  let s := {| ns := {[ "plt" := VModule "matplotlib.pyplot"; "hdu_list" := VHdus [] ]};
              trace := [] |} in
  run_cell Archive.answer ImshowCell s = (Raised IndexError, s).
Proof.
  intros s.
  destruct (empty_hdu_list_raises Archive.answer s) as [H _].
  apply (H (VModule "matplotlib.pyplot")); vm_compute; reflexivity.
Defined.

(** X10.  The download cells chain three calls: [download_file] on the
    data URL of the chosen record (row 0 of [sdss_table_heasarc], row 1 of
    [sdss_table_jhu]) with [cache=True], [fits.open] on the path that the
    download returned, and [plt.imshow] on the data of the first HDU of
    the opened file with [vmin=1010] and [vmax=1200]; the cell's value is
    what [imshow] returns, and [file_name] and [hdu_list] are bound to the
    path and the HDU list. *)
Theorem download_cells_chain (w : world) (c : cell) (table : string) (i : nat)
    (s : kernel) (m1 m2 m3 : value) (t : list ImageRecord) (r : ImageRecord)
    (path : string) (h : HDU) (hs : list HDU) :
  download_source c = Some (table, i) ->
  ns s !! "download_file" = Some m1 -> ns s !! "fits" = Some m2 ->
  ns s !! "plt" = Some m3 ->
  ns s !! table = Some (VImages t) ->
  Py.index t i = Ok r ->
  let dl := {| ev_call := DownloadFile (getdataurl r) true; ev_result := Ok (VStr path) |} in
  let op := {| ev_call := FitsOpen path; ev_result := Ok (VHdus (h :: hs)) |} in
  w (trace s) (ev_call dl) = ev_result dl ->
  w (trace s ++ [dl]) (ev_call op) = ev_result op ->
  let shown := w ((trace s ++ [dl]) ++ [op]) (Imshow (data h) (Some 1010%Q) (Some 1200%Q)) in
  run_cell w c s =
  (shown,
   {| ns := <["hdu_list" := VHdus (h :: hs)]> (<["file_name" := VStr path]> (ns s));
      trace := ((trace s ++ [dl]) ++ [op]) ++
        [{| ev_call := Imshow (data h) (Some 1010%Q) (Some 1200%Q); ev_result := shown |}] |}).
Proof. apply download_run. Qed.

Lemma download_cells_chain_witness :
  let s := session Archive.answer
             [Imports; UvotServices; ImTable; Services; Jhu] fresh in
  (run_cell Archive.answer JhuDownload s).1 = Ok VNone.
Proof.
  intros s.
  rewrite (download_cells_chain Archive.answer JhuDownload "sdss_table_jhu" 1 s
             (VModule "astropy.utils.data.download_file") (VModule "astropy.io.fits")
             (VModule "matplotlib.pyplot")
             (Archive.images_of Archive.sdss_jhu "")
             (Archive.image "SDSSDR7" "g")
             "/home/user/.astropy/cache/download/https://archive.example/SDSSDR7/g"
             {| hdu_name := "PRIMARY"; data := [[0%Q]] |} []);
    vm_compute; reflexivity.
Defined.

(** ** The registry searches *)



(** ** A cell reads only what it needs *)

Section Independence.
Context (w : world).

Lemma reads_within_bind {A B : Type} R (p : prog A) (f : A -> prog B) :
  reads_within R p -> obeys (fun _ => True) (fun _ => False) p ->
  (forall a, reads_within R (f a)) -> reads_within R (bind p f).
Proof.
  revert B f.
  induction p as [A a|A e|A x k IH|A x v k IH|A c k IH|A q IHq h IHh k IH];
    intros B f Hp Hn Hf; simpl in *.
  - apply Hf.
  - done.
  - destruct Hp as [Hx Hk]. split; [done|]. intros v. by apply IH.
  - by destruct Hn.
  - destruct Hn as [_ Hn]. intros v. by apply IH.
  - done.
Qed.

(** Two kernels with the same log that agree on [R] are told apart by no
    program that reads within [R]. *)
Lemma reads_within_sound {A : Type} R (p : prog A) (s s' : kernel) :
  reads_within R p -> trace s = trace s' ->
  (forall x, In x R -> ns s !! x = ns s' !! x) ->
  (run w p s).1 = (run w p s').1 /\
  emitted w p s = emitted w p s' /\
  (forall x, ns s !! x = ns s' !! x ->
     ns (run w p s).2 !! x = ns (run w p s').2 !! x).
Proof.
  revert R s s'.
  induction p as [A a|A e|A x k IH|A x v k IH|A c k IH|A q IHq h IHh k IH];
    intros R s s' Hp Htr HR; simpl in *.
  - done.
  - done.
  - destruct Hp as [Hx Hk]. rewrite <- (HR x Hx).
    destruct (ns s !! x); [by eapply IH | done].
  - destruct (IH (x :: R) (bind_name x v s) (bind_name x v s') Hp Htr) as (Ho & He & Hn).
    { intros y [<-|Hy]; simpl.
      - by rewrite !lookup_insert_eq.
      - destruct (decide (x = y)) as [<-|Hne].
        + by rewrite !lookup_insert_eq.
        + rewrite !lookup_insert_ne by done. by apply HR. }
    split; [done|]. split; [done|]. intros y Hy. apply Hn. simpl.
    destruct (decide (x = y)) as [<-|Hne].
    + by rewrite !lookup_insert_eq.
    + by rewrite !lookup_insert_ne.
  - rewrite <- Htr. destruct (w (trace s) c) as [v|e]; [|done].
    destruct (IH v R (log c (Ok v) s) (log c (Ok v) s') (Hp v)) as (Ho & He & Hn).
    { simpl. by rewrite Htr. }
    { done. }
    split; [done|]. split; [by rewrite He | done].
  - done.
Qed.

Ltac pure_step :=
  lazymatch goal with
  | |- obeys _ _ (load _) => apply obeys_load
  | |- obeys _ _ (extern _) => apply obeys_extern
  | |- obeys _ _ (lift _) => apply obeys_lift
  | |- obeys _ _ (as_services _) => apply obeys_as_services
  | |- obeys _ _ (as_service _) => apply obeys_as_service
  | |- obeys _ _ (as_images _) => apply obeys_as_images
  | |- obeys _ _ (as_hdus _) => apply obeys_as_hdus
  | |- obeys _ _ (as_coord _) => apply obeys_as_coord
  | |- obeys _ _ (as_str _) => apply obeys_as_str
  | |- obeys _ _ (as_table _) => apply obeys_as_table
  end; exact I.

Ltac within_prim :=
  lazymatch goal with
  | |- reads_within _ (load _) => split; [cbn [In]; tauto | intros ?; exact I]
  | |- reads_within _ (extern _) => intros ?; exact I
  | |- reads_within _ (lift ?r) => destruct r; exact I
  | |- reads_within _ (as_services ?v) => destruct v; exact I
  | |- reads_within _ (as_service ?v) => destruct v; exact I
  | |- reads_within _ (as_images ?v) => destruct v; exact I
  | |- reads_within _ (as_hdus ?v) => destruct v; exact I
  | |- reads_within _ (as_coord ?v) => destruct v; exact I
  | |- reads_within _ (as_str ?v) => destruct v; exact I
  | |- reads_within _ (as_table ?v) => destruct v; exact I
  end.

Ltac scan :=
  repeat lazymatch goal with
  | |- reads_within _ (bind _ _) =>
      apply reads_within_bind; [within_prim | pure_step | intros ?]
  | |- reads_within _ (Store _ _ _) => cbn [reads_within]
  | |- reads_within _ (Ret _) => exact I
  | |- reads_within _ _ => within_prim
  end.

Lemma cell_reads_within (c : cell) : reads_within (needs c) (body c).
Proof.
  destruct c; cbn [needs body];
    lazymatch goal with |- reads_within _ ?p => unfold p end;
    scan; try exact I.
Qed.

End Independence.


(** X11.  A cell reads no name other than the ones it needs: in two
    kernels with the same log of calls that agree on those names, the cell
    makes the same calls and has the same outcome, and any name on which
    the kernels agreed before they agree on afterwards. *)
Theorem cell_reads_only_needs (w : world) (c : cell) (s s' : kernel) :
  trace s = trace s' ->
  (forall x, In x (needs c) -> ns s !! x = ns s' !! x) ->
  (run_cell w c s).1 = (run_cell w c s').1 /\
  emitted w (body c) s = emitted w (body c) s' /\
  (forall x, ns s !! x = ns s' !! x ->
     ns (run_cell w c s).2 !! x = ns (run_cell w c s').2 !! x).
Proof.
  intros Htr Hagree. unfold run_cell.
  by apply (reads_within_sound w (needs c)); [apply cell_reads_within | |].
Qed.

Lemma cell_reads_only_needs_witness :
  let s := {| ns := {[ "im_table" := VImages [Archive.image "SwiftUVOT" "u"] ]};
              trace := [] |} in
  let s' := {| ns := {[ "im_table" := VImages [Archive.image "SwiftUVOT" "u"];
                        "url" := VStr "stale" ]};
               trace := [] |} in
  (run_cell Archive.answer Url s).1 = (run_cell Archive.answer Url s').1.
Proof.
  intros s s'.
  apply (cell_reads_only_needs Archive.answer Url s s').
  - reflexivity.
  - intros x Hx. simpl in Hx. destruct Hx as [<-|[]]. vm_compute. reflexivity.
Defined.

(** ** Running a cell again *)

Section Rerun.
Context (w : world) (Hw : stateless w).

(** Against a stateless world, two kernels that agree on [R] are told apart
    by no program that reads within [R], whatever their logs; and at the
    end every name holds the same value in both, unless the program left it
    alone in both. *)
Lemma reads_within_stateless {A : Type} R (p : prog A) (s s' : kernel) :
  reads_within R p ->
  (forall x, In x R -> ns s !! x = ns s' !! x) ->
  (run w p s).1 = (run w p s').1 /\
  emitted w p s = emitted w p s' /\
  (forall x, ns (run w p s).2 !! x = ns (run w p s').2 !! x \/
             (ns (run w p s).2 !! x = ns s !! x /\ ns (run w p s').2 !! x = ns s' !! x)).
Proof.
  revert R s s'.
  induction p as [A a|A e|A x k IH|A x v k IH|A c k IH|A q IHq h IHh k IH];
    intros R s s' Hp HR; simpl in *.
  - repeat split; try done. by right.
  - repeat split; try done. by right.
  - destruct Hp as [Hx Hk]. rewrite <- (HR x Hx).
    destruct (ns s !! x); [by eapply IH|]. repeat split; try done. by right.
  - destruct (IH (x :: R) (bind_name x v s) (bind_name x v s') Hp) as (Ho & He & Hn).
    { intros y [<-|Hy]; simpl.
      - by rewrite !lookup_insert_eq.
      - destruct (decide (x = y)) as [<-|Hne].
        + by rewrite !lookup_insert_eq.
        + rewrite !lookup_insert_ne by done. by apply HR. }
    split; [done|]. split; [done|]. intros y.
    destruct (Hn y) as [Heq|[H1 H2]]; [by left|]. simpl in H1, H2.
    destruct (decide (x = y)) as [<-|Hne].
    + left. rewrite H1, H2. by rewrite !lookup_insert_eq.
    + right. rewrite H1, H2. by rewrite !lookup_insert_ne.
  - rewrite (Hw (trace s') (trace s) c).
    destruct (w (trace s) c) as [v|e].
    + destruct (IH v R (log c (Ok v) s) (log c (Ok v) s') (Hp v) HR) as (Ho & He & Hn).
      split; [done|]. split; [by rewrite He | done].
    + repeat split; try done. by right.
  - done.
Qed.

Lemma needs_not_assigned (c : cell) (x : string) :
  In x (needs c) -> ~ In x (assigned c).
Proof.
  destruct c; cbn [needs assigned In]; intuition congruence.
Qed.

End Rerun.


(** X13.  Against services whose answers do not change, running a cell a
    second time right after the first makes the same calls with the same
    results, has the same outcome and leaves every name as the first run
    left it: a retry can only help when a service answers differently. *)
Theorem rerun_changes_nothing (w : world) (c : cell) (s : kernel) :
  stateless w ->
  let s1 := (run_cell w c s).2 in
  (run_cell w c s1).1 = (run_cell w c s).1 /\
  emitted w (body c) s1 = emitted w (body c) s /\
  ns (run_cell w c s1).2 = ns s1.
Proof.
  intros Hw s1. unfold run_cell in *.
  destruct (reads_within_stateless w Hw (needs c) (body c) s s1) as (Ho & He & Hn).
  - apply cell_reads_within.
  - intros x Hx. unfold s1. symmetry.
    by eapply obeys_frame; [apply cell_writes | apply needs_not_assigned].
  - split; [done|]. split; [done|]. apply map_eq. intros x.
    destruct (Hn x) as [Heq|[H1 H2]]; [by rewrite <- Heq|]. exact H2.
Qed.

Lemma rerun_changes_nothing_witness :
  let s := session Archive.answer [Imports; UvotServices] fresh in
  let s1 := (run_cell Archive.answer ImTable s).2 in
  (run_cell Archive.answer ImTable s1).1 = (run_cell Archive.answer ImTable s).1 /\
  emitted Archive.answer Cells.im_table s1 = emitted Archive.answer Cells.im_table s /\
  ns (run_cell Archive.answer ImTable s1).2 = ns s1.
Proof.
  intros s.
  apply (rerun_changes_nothing Archive.answer ImTable s).
  intros tr tr' c. reflexivity.
Defined.

(** ** A run in a cooperative world *)

Section Totality.
Context (w : world) (Hw : cooperative w).

Lemma total_weaken {A : Type} B (p : prog A) (Q R : A -> Prop) :
  total w B p Q -> (forall a, Q a -> R a) -> total w B p R.
Proof.
  intros Hp HQ s Hs HB. destruct (Hp s Hs HB) as (a & s' & Hrun & Hs' & HB' & Ha).
  exists a, s'. repeat split; try done. by apply HQ.
Qed.

Lemma total_bind {A B : Type} names (p : prog A) (Q : A -> Prop)
    (f : A -> prog B) (R : B -> Prop) :
  total w names p Q -> (forall a, Q a -> total w names (f a) R) ->
  total w names (bind p f) R.
Proof.
  intros Hp Hf s Hs HB. destruct (Hp s Hs HB) as (a & s' & Hrun & Hs' & HB' & Ha).
  rewrite run_bind, Hrun. by apply Hf.
Qed.

Lemma total_ret {A : Type} B (a : A) : total w B (Ret a) (fun _ => True).
Proof. intros s Hs HB. by exists a, s. Qed.

Lemma total_load B x : In x B -> total w B (load x) (shape_of x).
Proof.
  intros Hx s Hs HB. destruct (HB x Hx) as [v Hv].
  exists v, s. simpl. rewrite Hv. repeat split; try done. by apply Hs.
Qed.

Lemma total_store {A : Type} B x v (k : prog A) (Q : A -> Prop) :
  shape_of x v -> total w (x :: B) k Q -> total w B (Store x v k) Q.
Proof.
  intros Hv Hk s Hs HB. simpl.
  destruct (Hk (bind_name x v s)) as (a & s' & Hrun & Hs' & HB' & Ha).
  - intros y v'. simpl. destruct (decide (x = y)) as [<-|Hne].
    + rewrite lookup_insert_eq. by intros [= <-].
    + rewrite lookup_insert_ne by done. apply Hs.
  - intros y [<-|Hy]; simpl.
    + rewrite lookup_insert_eq. by eexists.
    + destruct (decide (x = y)) as [<-|Hne].
      * rewrite lookup_insert_eq. by eexists.
      * rewrite lookup_insert_ne by done. by apply HB.
  - exists a, s'. repeat split; try done. intros y Hy. apply HB'. by right.
Qed.

Lemma total_extern B c : sensible c -> total w B (extern c) (answer_ok c).
Proof.
  intros Hc s Hs HB. destruct (Hw (trace s) c Hc) as (v & Hv & Hok).
  exists v, (log c (Ok v) s). simpl. rewrite Hv. done.
Qed.

Lemma total_lift {A : Type} B (r : result A) :
  (exists a, r = Ok a) -> total w B (lift r) (fun a => r = Ok a).
Proof. intros [a ->] s Hs HB. by exists a, s. Qed.

Lemma total_as_services B v :
  (exists t, v = VServices t) -> total w B (as_services v) (fun t => v = VServices t).
Proof. intros [t ->] s Hs HB. by exists t, s. Qed.

Lemma total_as_service B v :
  (exists t, v = VService t) -> total w B (as_service v) (fun t => v = VService t).
Proof. intros [t ->] s Hs HB. by exists t, s. Qed.

Lemma total_as_images B v :
  (exists t, v = VImages t) -> total w B (as_images v) (fun t => v = VImages t).
Proof. intros [t ->] s Hs HB. by exists t, s. Qed.

Lemma total_as_hdus B v :
  (exists t, v = VHdus t) -> total w B (as_hdus v) (fun t => v = VHdus t).
Proof. intros [t ->] s Hs HB. by exists t, s. Qed.

Lemma total_as_coord B v :
  (exists t, v = VCoord t) -> total w B (as_coord v) (fun t => v = VCoord t).
Proof. intros [t ->] s Hs HB. by exists t, s. Qed.

Lemma total_as_str B v :
  (exists t, v = VStr t) -> total w B (as_str v) (fun t => v = VStr t).
Proof. intros [t ->] s Hs HB. by exists t, s. Qed.

Lemma total_as_table B v :
  (exists t, v = VTable t) -> total w B (as_table v) (fun t => v = VTable t).
Proof. intros [t ->] s Hs HB. by exists t, s. Qed.

Ltac eval_kinds :=
  unfold shape_of in *;
  repeat match goal with
  | |- context [kind_of ?x] =>
      let r := eval vm_compute in (kind_of x) in change (kind_of x) with r
  | H : context [kind_of ?x] |- _ =>
      let r := eval vm_compute in (kind_of x) in change (kind_of x) with r in H
  end;
  cbv beta iota in *.

Ltac digest :=
  eval_kinds; cbn [answer_ok] in *;
  repeat match goal with
  | H : exists _, _ |- _ => destruct H
  | H : _ /\ _ |- _ => destruct H
  | H : ?a = ?a -> _ |- _ => specialize (H eq_refl)
  end;
  simplify_eq.

Ltac tstep :=
  lazymatch goal with
  | |- total _ _ (bind (load _) _) _ =>
      eapply total_bind; [apply total_load; cbn [In]; tauto | intros ? ?; digest]
  | |- total _ _ (bind (extern _) _) _ =>
      eapply total_bind; [apply total_extern | intros ? ?; digest]
  | |- total _ _ (bind (lift _) _) _ =>
      eapply total_bind; [apply total_lift | intros ? ?; digest]
  | |- total _ _ (bind (as_services _) _) _ =>
      eapply total_bind; [apply total_as_services | intros ? ?; digest]
  | |- total _ _ (bind (as_service _) _) _ =>
      eapply total_bind; [apply total_as_service | intros ? ?; digest]
  | |- total _ _ (bind (as_images _) _) _ =>
      eapply total_bind; [apply total_as_images | intros ? ?; digest]
  | |- total _ _ (bind (as_hdus _) _) _ =>
      eapply total_bind; [apply total_as_hdus | intros ? ?; digest]
  | |- total _ _ (bind (as_coord _) _) _ =>
      eapply total_bind; [apply total_as_coord | intros ? ?; digest]
  | |- total _ _ (bind (as_str _) _) _ =>
      eapply total_bind; [apply total_as_str | intros ? ?; digest]
  | |- total _ _ (bind (as_table _) _) _ =>
      eapply total_bind; [apply total_as_table | intros ? ?; digest]
  | |- total _ _ (Store _ _ _) _ => apply total_store
  | |- total _ _ (Ret _) _ => apply total_ret
  | |- total _ _ (extern _) _ =>
      eapply total_weaken; [apply total_extern | intros; exact I]
  end.

Ltac present :=
  digest;
  lazymatch goal with
  | |- exists a, Py.index ?t _ = Ok a =>
      destruct t as [|? [|? ?]]; simpl in *; try congruence; try lia;
      eexists; reflexivity
  | |- exists a, select_columns _ _ = Ok a =>
      apply select_columns_total;
      [ assumption
      | match goal with
        | H : forall t, VServices _ = VServices t -> _ |- _ =>
            apply (H _ eq_refl)
        end ]
  | |- sensible _ => cbn [sensible]; first [ exact I | solve [eauto 6] ]
  | |- _ => first [ exact I | solve [eauto 6] ]
  end.

(** The registry cell of section 4 reads [services] twice; that both reads
    give the same table is seen on its run, not on the shapes. *)
Lemma services_total : total w (needs Services) Cells.services (fun _ => True).
Proof.
  intros s Hs HB.
  destruct (HB "vo") as [m Hm]; [cbn [needs In]; tauto|].
  destruct (HB "np") as [n Hn]; [cbn [needs In]; tauto|].
  set (c := RegSearch (Some "image") (Some "optical") (Some ["sloan"])).
  destruct (Hw (trace s) c I) as (v & Hv & t & -> & _ & Hsloan).
  set (search := {| ev_call := c; ev_result := Ok (VServices t) |}).
  destruct (Hw (trace s ++ [search]) (ToTable (VServices t)))
    as (tv & Htv & tbl & -> & Hwf & Htbl); [left; eauto|].
  set (outer := {| ev_call := ToTable (VServices t); ev_result := Ok (VTable tbl) |}).
  destruct (Hw ((trace s ++ [search]) ++ [outer]) (ToTable (VServices t)))
    as (tv' & Htv' & tbl' & -> & Hwf' & Htbl'); [left; eauto|].
  destruct (Htbl t eq_refl) as [Hlen Hcols].
  destruct (Htbl' t eq_refl) as [Hlen' Hcols'].
  rewrite (services_cell_run w s m n (VServices t) tbl tbl' Hm Hn Hv Htv Htv').
  destruct (isin_positions_total tbl' Hwf') as (indices & Hidx & Hlt).
  { apply Hcols'. simpl. tauto. }
  destruct (take_rows_total (rows tbl) indices) as [rs Hrs].
  { eapply Forall_impl; [exact Hlt|]. simpl. intros i Hi. lia. }
  assert (Htake : table_take tbl indices = Ok {| colnames := colnames tbl; rows := rs |}).
  { unfold table_take. by rewrite Hrs. }
  destruct (table_take_wf tbl indices _ Hwf Htake) as [Hpwf Hpcols].
  destruct (select_columns_total ["ivoid"; "short_name"]
              {| colnames := colnames tbl; rows := rs |} Hpwf) as [shown Hshown].
  { simpl. intros x [<-|[<-|[]]]; apply Hcols; simpl; tauto. }
  unfold rows_where_isin. rewrite Hidx, Htake, Hshown.
  eexists _, _. split; [reflexivity|]. split; [|split; [|done]].
  - intros y v'. simpl. destruct (decide ("services" = y)) as [<-|Hne].
    + rewrite lookup_insert_eq. intros [= <-]. eval_kinds.
      exists t. split; [done|]. by apply Hsloan.
    + rewrite lookup_insert_ne by done. apply Hs.
  - intros y Hy. simpl. destruct (decide ("services" = y)) as [<-|Hne].
    + rewrite lookup_insert_eq. by eexists.
    + rewrite lookup_insert_ne by done. by apply HB.
Qed.

Lemma cell_total (c : cell) : total w (needs c) (body c) (fun _ => True).
Proof.
  destruct c; cbn [body]; try apply services_total; cbn [needs];
    lazymatch goal with |- total _ _ ?p _ => unfold p end;
    repeat tstep; present.
Qed.

Lemma cell_run_total (c : cell) (s : kernel) :
  shaped s -> (forall x, In x (needs c) -> is_Some (ns s !! x)) ->
  exists a, (run_cell w c s).1 = Ok a /\ shaped (run_cell w c s).2.
Proof.
  intros Hs HB. destruct (cell_total c s Hs HB) as (a & s' & Hrun & Hs' & _).
  unfold run_cell. rewrite Hrun. by exists a.
Qed.

End Totality.

(** ** The calls of a cell *)

Section Calls.
Context (w : world).

Lemma calls_bind {A B : Type} ks1 ks2 (p : prog A) (f : A -> prog B) :
  calls ks1 p -> (forall a, calls ks2 (f a)) -> calls (ks1 ++ ks2) (bind p f).
Proof.
  revert B f ks1.
  induction p as [A a|A e|A x k IH|A x v k IH|A c k IH|A q IHq h IHh k IH];
    intros B f ks1 Hp Hf; simpl in *.
  - subst. apply Hf.
  - done.
  - intros v. by apply IH.
  - by apply IH.
  - destruct ks1 as [|k0 ks1]; [done|]. destruct Hp as [Hc Hk].
    simpl. split; [done|]. intros v. by apply IH.
  - done.
Qed.

(** A program that returns has made the calls read off its text. *)
Lemma calls_sound {A : Type} ks (p : prog A) (s : kernel) a :
  calls ks p -> (run w p s).1 = Ok a -> steps_of (emitted w p s) = ks.
Proof.
  revert ks s a.
  induction p as [A a'|A e|A x k IH|A x v k IH|A c k IH|A q IHq h IHh k IH];
    intros ks s a Hp; simpl in *.
  - done.
  - done.
  - destruct (ns s !! x); [by eapply IH | done].
  - by eapply IH.
  - destruct ks as [|k0 ks]; [done|]. destruct Hp as [<- Hk].
    destruct (w (trace s) c) as [v|e]; [|done].
    intros Hok. unfold steps_of in *. simpl. f_equal. by eapply IH.
  - done.
Qed.

Ltac count :=
  repeat lazymatch goal with
  | |- calls (?k :: ?ks) (bind (extern _) _) =>
      apply (calls_bind [k] ks);
      [split; [reflexivity | intros ?; reflexivity] | intros ?]
  | |- calls ?ks (bind (load _) _) =>
      apply (calls_bind [] ks); [intros ?; reflexivity | intros ?]
  | |- calls ?ks (bind (?f ?v) _) =>
      apply (calls_bind [] ks);
      [destruct v; first [reflexivity | exact I] | intros ?]
  | |- calls _ (Store _ _ _) => cbn [calls]
  | |- calls _ (Ret _) => reflexivity
  | |- calls [_] (extern _) => split; [reflexivity | intros ?; reflexivity]
  end.

Lemma cell_calls (c : cell) : calls (steps c) (body c).
Proof.
  destruct c; cbn [steps body];
    lazymatch goal with |- calls _ ?p => unfold p end;
    count; reflexivity.
Qed.

Lemma cell_steps (c : cell) (s : kernel) a :
  (run_cell w c s).1 = Ok a -> steps_of (emitted w (body c) s) = steps c.
Proof. apply calls_sound, cell_calls. Qed.

(** A session in which every cell returns makes the calls of its cells,
    cell after cell. *)
Lemma session_steps (cs : list cell) (s : kernel) :
  (forall pre c post, cs = pre ++ c :: post ->
     exists a, (run_cell w c (session w pre s)).1 = Ok a) ->
  steps_of (trace (session w cs s)) = steps_of (trace s) ++ concat (map steps cs).
Proof.
  revert s. induction cs as [|c cs IH]; intros s Hall; simpl.
  - by rewrite app_nil_r.
  - destruct (Hall [] c cs eq_refl) as [a Ha]. simpl in Ha.
    rewrite IH.
    + unfold run_cell. rewrite trace_run. unfold steps_of at 1.
      rewrite map_app. fold (steps_of (trace s)).
      fold (steps_of (emitted w (body c) s)).
      rewrite (cell_steps c s a Ha). by rewrite <- app_assoc.
    + intros pre c' post ->. apply (Hall (c :: pre) c' post eq_refl).
Qed.

End Calls.

Section Sessions.
Context (w : world) (Hw : cooperative w).

Lemma session_total (cs : list cell) :
  forall bound s, closed bound cs = true -> shaped s ->
    (forall x, In x bound -> is_Some (ns s !! x)) ->
    forall pre c post, cs = pre ++ c :: post ->
      exists a, (run_cell w c (session w pre s)).1 = Ok a.
Proof.
  induction cs as [|c0 cs IH]; intros bound s Hcl Hs HB pre c post Hcs.
  - by destruct pre.
  - simpl in Hcl. apply andb_true_iff in Hcl as [Hhere Hrest].
    rewrite forallb_forall in Hhere.
    destruct (cell_run_total w Hw c0 s Hs) as (a0 & Hok0 & Hs0).
    { intros x Hx. apply HB. apply one_of_In. by apply Hhere. }
    destruct pre as [|c1 pre]; simpl in Hcs; injection Hcs as -> ->.
    + by exists a0.
    + simpl. apply (IH (bound ++ assigned c1) _ Hrest Hs0) with (post := post); [|done].
      intros x Hx.
      destruct (in_dec String.string_dec x (assigned c1)) as [Hin|Hout].
      * by eapply binds_sound; [apply cell_binds | | exact Hok0].
      * apply in_app_or in Hx as [Hx|Hx]; [|done].
        unfold run_cell. rewrite (obeys_frame w _ _ _ s x (cell_writes c1)); [|done].
        by apply HB.
Qed.

End Sessions.

Lemma shaped_fresh : shaped fresh.
Proof. intros x v H. simpl in H. by rewrite lookup_empty in H. Qed.

Lemma services_table_wf t : well_formed (Archive.services_table t).
Proof.
  unfold well_formed. rewrite List.Forall_forall. simpl.
  intros row Hrow. by apply in_map_iff in Hrow as (s & <- & _).
Qed.

Lemma images_table_wf t : well_formed (Archive.images_table t).
Proof.
  unfold well_formed. rewrite List.Forall_forall. simpl.
  intros row Hrow. by apply in_map_iff in Hrow as (s & <- & _).
Qed.

Lemma obliging_cooperative : cooperative Archive.obliging.
Proof.
  intros tr c Hc. destruct c; simpl in Hc.
  6: { destruct Hc as [[t ->]|[t ->]]; eexists; (split; [reflexivity|]);
       eexists; (split; [reflexivity|]).
       - split; [apply services_table_wf|]. intros t0 [= <-]. simpl.
         split; [by rewrite length_map | tauto].
       - split; [apply images_table_wf | done]. }
  all: eexists; (split; [reflexivity|]); simpl; try done.
  - eexists. split; [reflexivity|]. split; [done|]. intros _.
    split; eexists; vm_compute; reflexivity.
  - by eexists.
  - eexists. split; [reflexivity|]. split; [done|]. intros _. simpl. lia.
  - eexists. by split.
  - by eexists.
Qed.

(** X12.  In a world where every call succeeds and returns what the cells
    expect (see [answer_ok]: imports succeed, [to_table()] gives a
    well-formed table with the registry columns, tables are not empty, both
    DR7 services are listed, the SkyServer query gives two records, the
    HDU list is not empty), a session from a fresh kernel in which every
    cell comes after the cells that assign the names it needs runs without
    any exception: every cell returns, having made the calls of its text,
    in order.  CS_Image_Access from top to bottom is such a session. *)
Theorem closed_session_completes (w : world) (cs pre post : list cell) (c : cell) :
  cooperative w -> closed [] cs = true -> cs = pre ++ c :: post ->
  exists a, (run_cell w c (session w pre fresh)).1 = Ok a /\
            steps_of (emitted w (body c) (session w pre fresh)) = steps c.
Proof.
  intros Hw Hcl Hcs.
  destruct (session_total w Hw cs [] fresh Hcl shaped_fresh) with (pre := pre)
    (c := c) (post := post) as [a Ha]; [done | done |].
  exists a. split; [done|]. by eapply cell_steps.
Qed.

Lemma closed_session_completes_witness :
  let s := session Archive.obliging
             [Imports; UvServices; UvotServices; ImTable; Url; DisplayJpeg;
              FitsOpenCell; ImshowCell; AplpyFigure; Services; Heasarc;
              HeasarcDownload; Jhu] fresh in
  exists a,
    (run_cell Archive.obliging JhuDownload s).1 = Ok a /\
    steps_of (emitted Archive.obliging (body JhuDownload) s)
    = [SDownloadFile; SFitsOpen; SImshow].
Proof.
  apply (closed_session_completes Archive.obliging cs_image_access
           [Imports; UvServices; UvotServices; ImTable; Url; DisplayJpeg; FitsOpenCell;
            ImshowCell; AplpyFigure; Services; Heasarc; HeasarcDownload; Jhu]
           [] JhuDownload).
  - exact obliging_cooperative.
  - vm_compute. reflexivity.
  - reflexivity.
Defined.

(** ** The order of the workflow *)

Section Order.

Lemma ordered_at tr pre ev post :
  ordered tr -> tr = pre ++ ev :: post -> admissible pre (ev_call ev).
Proof. intros H. apply H. Qed.

Lemma ordered_app pre rest : ordered (pre ++ rest) -> ordered pre.
Proof.
  intros H p1 ev p2 ->. apply (H p1 ev (p2 ++ rest)).
  by rewrite <- app_assoc.
Qed.

Lemma url_known_after_query pre u :
  ordered pre -> url_known pre u -> after_query pre u.
Proof.
  intros Hord (t & r & (svc & pos & size & fmt & Hin) & Hr & Hu).
  apply in_split in Hin as (p1 & p2 & Hpre).
  exists p1, p2, svc, pos, size, fmt, t, r. repeat split; try done.
  by destruct (Hord p1 _ p2 Hpre) as [Hsvc _].
Qed.

End Order.

(** C4.  The steps come in the order of the workflow.  In every session
    (any cells, in any order, from a fresh kernel): an image query goes to
    a service that an earlier registry search returned; a table that is
    shown is the table of an earlier registry or query result; a URL that
    is printed, displayed or downloaded is the data URL of a record
    returned by an earlier image query (itself made after the registry
    search); a file that is opened is such a URL or a path that an earlier
    download returned; and what is plotted is the data of a file opened
    earlier.  And the steps are performed: when every call succeeds and
    returns what the cells expect, CS_Image_Access run from top to bottom
    makes exactly the sequence of calls below, cell after cell: the
    registry searches, the query, the prints and displays of its data
    URL, the FITS query, open and plots, the [sloan] search, and for each
    of the two DR7 services the query, the download, the open and the
    plot. *)
Theorem workflow_order (w : world) :
  (forall cs pre ev post,
     trace (session w cs fresh) = pre ++ ev :: post ->
     match ev_call ev with
     | Search svc _ _ _ => service_known pre svc
     | ToTable v => registry_gave pre v \/ query_gave pre v
     | ShowInNotebook tv _ => tabulated pre tv
     | Print v => exists u, v = VStr u /\ after_query pre u
     | Display v => exists u, v = VImage u /\ after_query pre u
     | DownloadFile u _ => after_query pre u
     | FitsOpen src => after_query pre src \/ downloaded pre (VStr src)
     | HduInfo h | FitsFigure h => opened pre (VHdus h)
     | Imshow px _ _ =>
         exists h h0, opened pre (VHdus h) /\ Py.index h 0 = Ok h0 /\ px = data h0
     | ShowGrayscale fig _ _ => figure_made pre fig
     | Import _ | ImportFrom _ _ | Magic _ | FilterWarnings _ _ _ _
     | RegSearch _ _ _ | FromName _ => True
     end) /\
  (cooperative w ->
     steps_of (trace (session w cs_image_access fresh)) =
       [SImport; SImport; SImport; SMagic; SImport; SImport; SImport; SImport;
        SImport; SImport; SImport; SImport; SFilterWarnings; SFilterWarnings]
       ++ [SRegSearch; SToTable]
       ++ [SRegSearch; SToTable]
       ++ [SFromName; SSearch; SToTable]
       ++ [SPrint]
       ++ [SDisplay]
       ++ [SSearch; SFitsOpen; SHduInfo]
       ++ [SImshow]
       ++ [SFitsFigure; SShowGrayscale]
       ++ [SRegSearch; SToTable; SToTable]
       ++ [SSearch; SToTable]
       ++ [SDownloadFile; SFitsOpen; SImshow]
       ++ [SSearch; SToTable; SShowInNotebook]
       ++ [SDownloadFile; SFitsOpen; SImshow]).
Proof.
  split.
  - intros cs pre ev post Htr. destruct (session_inv w cs) as [_ Hord].
    pose proof (ordered_at _ _ _ _ Hord Htr) as Hadm.
    rewrite Htr in Hord. apply ordered_app in Hord.
    destruct (ev_call ev); simpl in Hadm; try done.
    + by destruct Hadm.
    + by destruct Hadm.
    + destruct Hadm as (u & -> & Hu). exists u. split; [done|].
      by apply url_known_after_query.
    + destruct Hadm as (u & -> & Hu). exists u. split; [done|].
      by apply url_known_after_query.
    + destruct Hadm as [Hu|Hd]; [left | by right].
      by apply url_known_after_query.
    + destruct Hadm as [Hu _]. by apply url_known_after_query.
  - intros Hw. rewrite session_steps; [reflexivity|].
    intros pre c post Hcs.
    by apply (session_total w Hw cs_image_access [] fresh eq_refl shaped_fresh)
      with (post := post).
Qed.

(** The run from top to bottom against the obliging archive. *)
Lemma workflow_order_witness :
  skipn 32 (steps_of (trace (session Archive.obliging cs_image_access fresh)))
  = [SSearch; SToTable; SDownloadFile; SFitsOpen; SImshow;
     SSearch; SToTable; SShowInNotebook; SDownloadFile; SFitsOpen; SImshow].
Proof.
  destruct (workflow_order Archive.obliging) as [_ H].
  rewrite (H obliging_cooperative). reflexivity.
Defined.
